(** * ExtensionsDownloader: the download cache of extension packages

    A shallow embedding of
    [src/vs/platform/extensionManagement/node/extensionDownloader.ts]
    and the statements of its specification.

    Strings are character lists over an 8-bit alphabet ([string] of the
    Standard Library); [toLowerCase] acts on the letters A-Z. *)

From Stdlib Require Import String Ascii List Arith Bool NArith ZArith Lia Permutation.
Import ListNotations.

Open Scope string_scope.
Open Scope list_scope.

Infix "+++" := String.append (right associativity, at level 60).

(* ================================================================== *)
(** * Strings *)
(* ================================================================== *)

Module Str.

Fixpoint all (p : ascii -> bool) (s : string) : bool :=
  match s with
  | EmptyString => true
  | String a s' => p a && all p s'
  end.

Fixpoint map (f : ascii -> ascii) (s : string) : string :=
  match s with
  | EmptyString => EmptyString
  | String a s' => String (f a) (map f s')
  end.

(** A non-empty run of characters of one class. *)
Definition run_of (p : ascii -> bool) (s : string) : Prop :=
  s <> "" /\ all p s = true.

Definition is_char (c a : ascii) : bool := Ascii.eqb a c.
Definition not_char (c a : ascii) : bool := negb (Ascii.eqb a c).

Definition is_upper (a : ascii) : bool :=
  (65 <=? nat_of_ascii a)%nat && (nat_of_ascii a <=? 90)%nat.

Definition lower_char (a : ascii) : ascii :=
  if is_upper a then ascii_of_nat (nat_of_ascii a + 32) else a.

(** [String.prototype.toLowerCase]. *)
Definition toLowerCase (s : string) : string := map lower_char s.

(** The part of [s] in front of its suffix [rest]. *)
Definition consumed (s rest : string) : string :=
  substring 0 (String.length s - String.length rest) s.

End Str.

(* ================================================================== *)
(** * Regular expressions with greedy repetition and capture groups *)
(* ================================================================== *)

Module Regex.

Definition captures := nat -> option string.

Definition no_captures : captures := fun _ => None.

Definition set_capture (i : nat) (s : string) (c : captures) : captures :=
  fun j => if Nat.eqb j i then Some s else c j.

(** The fragment the source uses: character classes, a greedy [+] on a
    class, concatenation and numbered groups. *)
Inductive regex : Type :=
| Class (p : ascii -> bool)
| PlusClass (p : ascii -> bool)
| Cat (r1 r2 : regex)
| Group (i : nat) (r : regex).

(** Greedy [C+]: one character of the class, then as many more as the
    rest of the pattern allows, the longest run tried first. *)
Fixpoint plus_loop {A} (p : ascii -> bool) (s : string)
         (k : string -> option A) : option A :=
  match s with
  | EmptyString => None
  | String a s' =>
      if p a then
        match plus_loop p s' k with
        | Some x => Some x
        | None => k s'
        end
      else None
  end.

(** Backtracking matcher in continuation style: [k] is the rest of the
    pattern, applied to the input left over and the groups so far. *)
Fixpoint run {A} (r : regex) (s : string) (c : captures)
         (k : string -> captures -> option A) : option A :=
  match r with
  | Class p =>
      match s with
      | EmptyString => None
      | String a s' => if p a then k s' c else None
      end
  | PlusClass p => plus_loop p s (fun rest => k rest c)
  | Cat r1 r2 => run r1 s c (fun s1 c1 => run r2 s1 c1 k)
  | Group i r' =>
      run r' s c (fun rest c1 => k rest (set_capture i (Str.consumed s rest) c1))
  end.

(** [/^r$/.exec(s)]: the pattern anchored at both ends of the input. *)
Definition exec (r : regex) (s : string) : option captures :=
  run r s no_captures
      (fun rest c => match rest with EmptyString => Some c | _ => None end).

(** Declarative reading: [matches r s c c'] when [r] matches exactly [s]
    and turns the groups [c] into [c']. *)
Inductive matches : regex -> string -> captures -> captures -> Prop :=
| M_Class p a c :
    p a = true -> matches (Class p) (String a "") c c
| M_Plus p s c :
    Str.run_of p s -> matches (PlusClass p) s c c
| M_Cat r1 r2 s1 s2 c c1 c2 :
    matches r1 s1 c c1 -> matches r2 s2 c1 c2 ->
    matches (Cat r1 r2) (s1 +++ s2) c c2
| M_Group i r s c c1 :
    matches r s c c1 -> matches (Group i r) s c (set_capture i s c1).

(** Character classes of the source pattern. *)
Definition dot : ascii := "."%char.
Definition dash : ascii := "-"%char.

(** [\d] *)
Definition digit (a : ascii) : bool :=
  (48 <=? nat_of_ascii a)%nat && (nat_of_ascii a <=? 57)%nat.

(** [.] : any character but a line terminator. *)
Definition any_char (a : ascii) : bool :=
  negb (Nat.eqb (nat_of_ascii a) 10) && negb (Nat.eqb (nat_of_ascii a) 13).

(** [[^.]] *)
Definition not_dot : ascii -> bool := Str.not_char dot.

Fixpoint seq (rs : list regex) (last : regex) : regex :=
  match rs with
  | [] => last
  | r :: rs' => Cat r (seq rs' last)
  end.

End Regex.

Import Regex.

(** [const ExtensionIdVersionRegex = /^([^.]+\..+)-(\d+\.\d+\.\d+)$/] *)
Definition ExtensionIdVersionRegex : regex :=
  seq [ Group 1 (seq [PlusClass not_dot; Class (Str.is_char dot)] (PlusClass any_char));
        Class (Str.is_char dash) ]
      (Group 2 (seq [PlusClass digit; Class (Str.is_char dot);
                     PlusClass digit; Class (Str.is_char dot)] (PlusClass digit))).

(* ================================================================== *)
(** * Data model *)
(* ================================================================== *)

Definition URI := string.

(** Modelled from the spec: [joinPath] of [vs/base/common/resources] is not
    part of the sources at hand; the location of an entry is
    "root / name". *)
Definition joinPath (dir : URI) (name : string) : URI := dir +++ "/" +++ name.

Record IExtensionIdentifier := { id : string; uuid : option string }.

(** [ExtensionIdentifierWithVersion]: the identity of a cached artifact. *)
Record ExtensionIdentifierWithVersion :=
  { identifier : IExtensionIdentifier; version : string }.

(** Modelled from the spec: [ExtensionIdentifierWithVersion.key] lives in
    [extensionManagementUtil], not part of the sources at hand; the
    canonical serialization is "<packageId>-<version>". *)
Definition key (e : ExtensionIdentifierWithVersion) : string :=
  id (identifier e) +++ "-" +++ version e.

Record IGalleryExtension :=
  { g_identifier : IExtensionIdentifier; g_version : string }.

Record IFileStat := { name : string; resource : URI }.

(** The name under which an artifact is cached (the caching branch of
    [getName]). *)
Definition cacheName (extension : IGalleryExtension) : string :=
  Str.toLowerCase
    (key {| identifier := g_identifier extension; version := g_version extension |}).

(** [parse(name)] *)
Definition parse (name : string) : option ExtensionIdentifierWithVersion :=
  match exec ExtensionIdVersionRegex name with
  | Some m =>
      match m 1%nat, m 2%nat with
      | Some (String a1 s1), Some (String a2 s2) =>
          Some {| identifier := {| id := String a1 s1; uuid := None |};
                  version := String a2 s2 |}
      | _, _ => None
      end
  | None => None
  end.

(* ================================================================== *)
(** * Versions *)
(* ================================================================== *)

Module Semver.

(** Value of a decimal numeral, most significant digit first. *)
Fixpoint decimal (acc : N) (s : string) : option N :=
  match s with
  | EmptyString => Some acc
  | String a s' =>
      if digit a
      then decimal (acc * 10 + (N.of_nat (nat_of_ascii a) - 48)) s'
      else None
  end.

Definition numeral (s : string) : option N :=
  match s with
  | EmptyString => None
  | _ => decimal 0 s
  end.

(** The next dot-separated field of [s] and what follows the dot. *)
Fixpoint field (s : string) : string * option string :=
  match s with
  | EmptyString => (EmptyString, None)
  | String a s' =>
      if Ascii.eqb a dot then (EmptyString, Some s')
      else let '(f, rest) := field s' in (String a f, rest)
  end.

Definition triple := (N * N * N)%type.

(** MAJOR.MINOR.PATCH as three numbers. *)
Definition read (v : string) : option triple :=
  match field v with
  | (f1, Some r1) =>
      match field r1 with
      | (f2, Some r2) =>
          match field r2 with
          | (f3, None) =>
              match numeral f1, numeral f2, numeral f3 with
              | Some a, Some b, Some c => Some (a, b, c)
              | _, _, _ => None
              end
          | _ => None
          end
      | _ => None
      end
  | _ => None
  end.

Definition sign (c : comparison) (next : Z) : Z :=
  match c with
  | Lt => (-1)%Z
  | Gt => 1%Z
  | Eq => next
  end.

(** Major, then minor, then patch. *)
Definition compare3 (x y : triple) : Z :=
  let '(a1, a2, a3) := x in
  let '(b1, b2, b3) := y in
  sign (a1 ?= b1)%N (sign (a2 ?= b2)%N (sign (a3 ?= b3)%N 0%Z)).

(** Modelled from the spec: the [semver-umd] package is not part of the
    sources at hand; versions are compared by "full semantic-version
    comparison (major, then minor, then patch ...), no
    pre-release/build-metadata handling beyond the three numeric
    fields".  The strings [cleanUp] compares all come out of [parse], so
    they are three-part numeric; each field is read as a number, whatever
    its leading zeros, and on any other string the comparison is left
    neutral. *)
Definition compare (a b : string) : Z :=
  match read a, read b with
  | Some x, Some y => compare3 x y
  | _, _ => 0%Z
  end.

(** [semver.rcompare(a, b)]: the reverse comparison, for a descending
    sort. *)
Definition rcompare (a b : string) : Z := compare b a.

End Semver.

(* ================================================================== *)
(** * Arrays *)
(* ================================================================== *)

Module Arr.

Section Sort.
Context {A : Type} (cmp : A -> A -> Z).

Fixpoint insert (x : A) (l : list A) : list A :=
  match l with
  | [] => [x]
  | y :: l' => if (cmp x y <=? 0)%Z then x :: l else y :: insert x l'
  end.

(** [Array.prototype.sort(cmp)], a stable sort: an element stays in
    front of the later elements it compares equal to. *)
Definition sort (l : list A) : list A := fold_right insert [] l.

(** The head of [l] goes in front of every element of [l]. *)
Definition headed (l : list A) : Prop :=
  match l with
  | [] => True
  | h :: _ => forall y, In y l -> (cmp h y <= 0)%Z
  end.
End Sort.

(** [Array.prototype.slice(start, end)] for indices that are not
    negative. *)
Definition slice {A} (l : list A) (start stop : Z) : list A :=
  firstn (Z.to_nat stop - Z.to_nat start) (skipn (Z.to_nat start) l).

(** [Array.prototype.slice(1)] *)
Definition slice1 {A} (l : list A) : list A := skipn 1 l.

Definition push {A} (l : list A) (xs : list A) : list A := l ++ xs.

End Arr.

(* ================================================================== *)
(** * Grouping *)
(* ================================================================== *)

(** Modelled from the spec: [areSameExtensions] lives in
    [extensionManagementUtil], not part of the sources at hand; entries
    are grouped "by packageId". *)
Definition areSameExtensions (a b : IExtensionIdentifier) : bool :=
  String.eqb (id a) (id b).

Section GroupBy.
Context {T : Type} (getExtensionIdentifier : T -> IExtensionIdentifier).

Definition inGroup (extension : T) (group : list T) : bool :=
  existsb (fun e => areSameExtensions (getExtensionIdentifier e)
                                      (getExtensionIdentifier extension)) group.

(** Append [extension] to the first group that holds an entry of the same
    package, or open a new group at the end. *)
Fixpoint addToGroup (extension : T) (byExtension : list (list T)) : list (list T) :=
  match byExtension with
  | [] => [[extension]]
  | group :: rest =>
      if inGroup extension group
      then (group ++ [extension]) :: rest
      else group :: addToGroup extension rest
  end.

(** Modelled from the spec: [groupByExtension] lives in
    [extensionManagementUtil], not part of the sources at hand; it
    "groups the valid entries by packageId", the groups "in the order
    groups were encountered (insertion order of first sighting while
    scanning the directory listing)". *)
Definition groupByExtension (extensions : list T) : list (list T) :=
  fold_left (fun byExtension extension => addToGroup extension byExtension)
            extensions [].
End GroupBy.

(* ================================================================== *)
(** * What a reconciliation pass marks for deletion *)
(* ================================================================== *)

Definition entry := (ExtensionIdentifierWithVersion * IFileStat)%type.

(** The loop over [folderStat.children]: [(toDelete, all)]. *)
Definition scan (children : list IFileStat) : list URI * list entry :=
  fold_left
    (fun acc stat =>
       let '(toDelete, all) := acc in
       match parse (name stat) with
       | Some extension => (toDelete, Arr.push all [(extension, stat)])
       | None => (Arr.push toDelete [resource stat], all)
       end)
    children ([], []).

Definition byVersionDesc (a b : entry) : Z :=
  Semver.rcompare (version (fst a)) (version (fst b)).

(** The loop over [byExtension]: [(toDelete, distinct)]; [None] stands for
    the [TypeError] of reading [p[0][1]] in an empty group. *)
Definition pruneGroups (byExtension : list (list entry)) (toDelete : list URI)
  : option (list URI * list URI) :=
  fold_left
    (fun acc p =>
       match acc with
       | None => None
       | Some (toDelete, distinct) =>
           let p := Arr.sort byVersionDesc p in
           match p with
           | [] => None
           | p0 :: _ =>
               Some (Arr.push toDelete (List.map (fun e => resource (snd e)) (Arr.slice1 p)),
                     Arr.push distinct [resource (snd p0)])
           end
       end)
    byExtension (Some (toDelete, [])).

(** Lines 69-86 of [cleanUp]: the kept representatives ([distinct]) and the
    locations to delete ([toDelete]). *)
Definition reconcile (cache : Z) (children : list IFileStat)
  : option (list URI * list URI) :=
  let '(toDelete, all) := scan children in
  let byExtension := groupByExtension (fun e : entry => identifier (fst e)) all in
  match pruneGroups byExtension toDelete with
  | None => None
  | Some (toDelete, distinct) =>
      Some (distinct,
            Arr.push toDelete
              (Arr.slice distinct 0
                 (Z.max 0 (Z.of_nat (List.length distinct) - cache))))
  end.

Definition file (n : string) : IFileStat :=
  {| name := n; resource := joinPath "/cache" n |}.


(* ================================================================== *)
(** * Effects: collaborators, promises and the event log *)
(* ================================================================== *)

(** Modelled from the spec: [InstallOperation] is declared in
    [extensionManagement], not part of the sources at hand; it is the
    "operation context", which the code hands on to the fetcher and never
    looks into.  A number stands for it. *)
Definition InstallOperation : Type := nat.

Inductive outcome (E A : Type) : Type :=
| Returned (a : A)
| Threw (e : E)
| Suspended.

Arguments Returned {E A} a.
Arguments Threw {E A} e.
Arguments Suspended {E A}.

Section Effects.
Context {World Err : Type}.

(** What an [await] can throw: the rejection of a collaborator, or the
    [TypeError] of the language. *)
Inductive exn : Type :=
| Rejected (e : Err)
| TypeError.

Inductive promise : Type :=
| Pending
| Fulfilled
| Failed (e : exn).

(** Calls made to the collaborators, in the order they happen. *)
Inductive event : Type :=
| Exists (location : URI)
| Resolve (location : URI)
| Del (location : URI)
| Settled (location : URI) (ok : bool)
| Download (extension : IGalleryExtension) (location : URI)
           (operation : InstallOperation)
| Uuid
| Trace (message : string) (arg : option string)
| LogError (e : exn).

(** [world]: the state of the collaborators; [log]: the calls made so
    far; [inflight]: deletions that were started and have not finished,
    with nobody waiting for them; [cleanUpPromise]: the state of the
    promise the constructor stores. *)
Record state : Type :=
  { world : World;
    log : list event;
    inflight : list URI;
    cleanUpPromise : promise }.

Definition with_world (w : World) (st : state) : state :=
  {| world := w; log := log st; inflight := inflight st;
     cleanUpPromise := cleanUpPromise st |}.

Definition with_event (e : event) (st : state) : state :=
  {| world := world st; log := log st ++ [e]; inflight := inflight st;
     cleanUpPromise := cleanUpPromise st |}.

Definition with_events (es : list event) (st : state) : state :=
  {| world := world st; log := log st ++ es; inflight := inflight st;
     cleanUpPromise := cleanUpPromise st |}.

Definition with_inflight (l : list URI) (st : state) : state :=
  {| world := world st; log := log st; inflight := l;
     cleanUpPromise := cleanUpPromise st |}.

Definition with_promise (p : promise) (st : state) : state :=
  {| world := world st; log := log st; inflight := inflight st;
     cleanUpPromise := p |}.

(** An [async] function body run up to its completion, or up to an
    [await] on a promise that is still pending. *)
Definition M (A : Type) : Type := state -> outcome exn A * state.

Definition ret {A} (a : A) : M A := fun st => (Returned a, st).

Definition throw {A} (e : exn) : M A := fun st => (Threw e, st).

Definition bind {A B} (m : M A) (f : A -> M B) : M B :=
  fun st =>
    match m st with
    | (Returned a, st') => f a st'
    | (Threw e, st') => (Threw e, st')
    | (Suspended, st') => (Suspended, st')
    end.

(** [try { m } catch (e) { h e }] *)
Definition try_catch {A} (m : M A) (h : exn -> M A) : M A :=
  fun st =>
    match m st with
    | (Threw e, st') => h e st'
    | r => r
    end.

Definition emit (e : event) : M unit :=
  fun st => (Returned tt, with_event e st).

(** [await] of a call to a collaborator: the call is logged, the
    collaborator acts on the world, a rejection is thrown. *)
Definition await {A} (e : event) (op : World -> (Err + A) * World) : M A :=
  fun st =>
    let st1 := with_event e st in
    match op (world st1) with
    | (inr a, w) => (Returned a, with_world w st1)
    | (inl err, w) => (Threw (Rejected err), with_world w st1)
    end.

(** The answer of a call that was made earlier arrives: the collaborator
    acts on the world, a rejection is thrown. *)
Definition answer {A} (op : World -> (Err + A) * World) : M A :=
  fun st =>
    match op (world st) with
    | (inr a, w) => (Returned a, with_world w st)
    | (inl err, w) => (Threw (Rejected err), with_world w st)
    end.

Record FolderStat : Type := { children : option (list IFileStat) }.

(** The Blob Store. *)
Record IFileService : Type :=
  { fs_exists : URI -> World -> (Err + bool) * World;
    fs_resolve : URI -> World -> (Err + FolderStat) * World;
    fs_del : URI -> World -> (Err + unit) * World }.

(** The Artifact Fetcher. *)
Record IExtensionGalleryService : Type :=
  { gallery_download :
      IGalleryExtension -> URI -> InstallOperation -> World -> (Err + unit) * World }.

(** What the host provides besides the injected services:
    [os.tmpdir()], [generateUuid()], and which of several operations in
    flight finishes next (its index, taken modulo their number). *)
Record Host : Type :=
  { tmpdir : URI;
    generateUuid : World -> string * World;
    finishes_next : World -> nat }.

Record ExtensionsDownloader : Type :=
  { extensionsDownloadDir : URI;
    cache : Z;
    fileService : IFileService;
    extensionGalleryService : IExtensionGalleryService;
    host : Host }.

Section Methods.
Variable this : ExtensionsDownloader.

Notation "x <- m ;; k" := (bind m (fun x => k))
  (at level 61, m at next level, right associativity).
Notation "m ;;; k" := (bind m (fun _ => k))
  (at level 61, right associativity).

(** [logService.trace] and [logService.error] never fail the caller. *)
Definition trace (message : string) (arg : option string) : M unit :=
  emit (Trace message arg).

Definition logError (e : exn) : M unit := emit (LogError e).

(** [fileService.del(resource)] without [await]: the deletion is
    started and the promise handed back. *)
Definition del_start (resource : URI) : M URI :=
  emit (Del resource) ;;; ret resource.

(** One deletion in flight finishes. *)
Definition del_finish (resource : URI) : M unit :=
  fun st =>
    match fs_del (fileService this) resource (world st) with
    | (inr _, w) => (Returned tt, with_event (Settled resource true) (with_world w st))
    | (inl err, w) =>
        (Threw (Rejected err), with_event (Settled resource false) (with_world w st))
    end.

Fixpoint remove_nth {A} (i : nat) (l : list A) : list A :=
  match l, i with
  | [], _ => []
  | _ :: l', O => l'
  | x :: l', S i' => x :: remove_nth i' l'
  end.

(** [await Promise.all(promises)]: the operations finish in the order
    the host decides; the wait ends when all have finished, or with the
    first one to fail, the others staying in flight. *)
Fixpoint awaitAll (fuel : nat) (promises : list URI) : M unit :=
  match promises, fuel with
  | [], _ => ret tt
  | _, O => ret tt
  | first :: _, S fuel' =>
      fun st =>
        let i := (finishes_next (host this) (world st) mod List.length promises)%nat in
        let rest := remove_nth i promises in
        match del_finish (nth i promises first) st with
        | (Returned _, st') => awaitAll fuel' rest st'
        | (r, st') => (r, with_inflight (inflight st' ++ rest) st')
        end
  end.

Definition Promise_all (promises : list URI) : M unit :=
  awaitAll (List.length promises) promises.

(** [toDelete.map(resource => { trace; return del(resource) })] *)
Fixpoint mapM {A B} (f : A -> M B) (l : list A) : M (list B) :=
  match l with
  | [] => ret []
  | x :: l' => y <- f x ;; ys <- mapM f l' ;; ret (y :: ys)
  end.

(** The body of [cleanUp] from the answer of the check of the root on. *)
Definition cleanUpAfterCheck (found : bool) : M unit :=
  if negb found then
    trace "Extension VSIX downlads cache dir does not exist" None
  else
    folderStat <- await (Resolve (extensionsDownloadDir this))
                        (fs_resolve (fileService this) (extensionsDownloadDir this)) ;;
    match children folderStat with
    | Some children =>
        match reconcile (cache this) children with
        | None => throw TypeError
        | Some (_, toDelete) =>
            promises <- mapM (fun resource =>
                                trace "Deleting vsix from cache" (Some resource) ;;;
                                del_start resource) toDelete ;;
            Promise_all promises
        end
    | None => ret tt
    end.

(** The body of [cleanUp]. *)
Definition cleanUpBody : M unit :=
  found <- await (Exists (extensionsDownloadDir this))
                 (fs_exists (fileService this) (extensionsDownloadDir this)) ;;
  cleanUpAfterCheck found.

(** [cleanUp()] *)
Definition cleanUp : M unit :=
  try_catch cleanUpBody (fun e => logError e).

(** [cleanUp()] from its first [await] on, the call of [exists] on the
    root already made: what is left of the pass when the constructor has
    returned. *)
Definition cleanUpResumed : M unit :=
  try_catch
    (found <- answer (fs_exists (fileService this) (extensionsDownloadDir this)) ;;
     cleanUpAfterCheck found)
    (fun e => logError e).

(** [await this.cleanUpPromise] *)
Definition awaitCleanUp : M unit :=
  fun st =>
    match cleanUpPromise st with
    | Pending => (Suspended, st)
    | Fulfilled => (Returned tt, st)
    | Failed e => (Threw e, st)
    end.

(** [getName(extension)] *)
Definition getName (extension : IGalleryExtension) : M string :=
  if (cache this =? 0)%Z
  then fun st =>
         let '(token, w) := generateUuid (host this) (world st) in
         (Returned token, with_world w (with_event Uuid st))
  else ret (cacheName extension).

(** [download(extension, location, operation)] *)
Definition download (extension : IGalleryExtension) (location : URI)
           (operation : InstallOperation) : M unit :=
  found <- await (Exists location) (fs_exists (fileService this) location) ;;
  if negb found then
    await (Download extension location operation)
          (gallery_download (extensionGalleryService this) extension location operation)
  else ret tt.

(** [downloadExtension(extension, operation)] *)
Definition downloadExtension (extension : IGalleryExtension)
           (operation : InstallOperation) : M URI :=
  awaitCleanUp ;;;
  name <- getName extension ;;
  let location := joinPath (extensionsDownloadDir this) name in
  download extension location operation ;;;
  ret location.

(** [delete(location)] *)
Definition delete (location : URI) : M unit :=
  if (cache this =? 0)%Z
  then (del_start location ;;; del_finish location)
  else ret tt.

(** The promise returned by the call [this.cleanUp()] settles when the
    body of [cleanUp] has run. *)
Definition cleanUpCompletes (st : state) : state :=
  match cleanUp st with
  | (Returned _, st') => with_promise Fulfilled st'
  | (Threw e, st') => with_promise (Failed e) st'
  | (Suspended, st') => st'
  end.

(** The promise the constructor stored settles when the pass it started
    has run to its end. *)
Definition cleanUpSettles (st : state) : state :=
  match cleanUpResumed st with
  | (Returned _, st') => with_promise Fulfilled st'
  | (Threw e, st') => with_promise (Failed e) st'
  | (Suspended, st') => st'
  end.

(** Deletions left in flight finish one after the other, their
    failures noticed by nobody. *)
Fixpoint drain (fuel : nat) (st : state) : state :=
  match inflight st, fuel with
  | [], _ => st
  | _, O => st
  | first :: _, S fuel' =>
      let i := (finishes_next (host this) (world st) mod List.length (inflight st))%nat in
      let rest := remove_nth i (inflight st) in
      let st' := snd (del_finish (nth i (inflight st) first) st) in
      drain fuel' (with_inflight rest st')
  end.

(** What may happen next to a downloader: a caller calls a download, or
    comes back to one that was suspended; a caller calls [delete]; the
    pass the constructor started runs from its first [await] to its end,
    in one step (while its promise is pending a call of this class with
    the cache on does nothing, so no call has an effect in between); a
    deletion left in flight finishes. *)
Inductive action : Type :=
| CallDownload (extension : IGalleryExtension) (operation : InstallOperation)
| CallDelete (location : URI)
| CleanUpDone
| Finish.

Definition step (a : action) (st : state) : state :=
  match a with
  | CallDownload extension operation => snd (downloadExtension extension operation st)
  | CallDelete location => snd (delete location st)
  | CleanUpDone =>
      match cleanUpPromise st with
      | Pending => cleanUpSettles st
      | _ => st
      end
  | Finish => drain 1 st
  end.

Definition steps (l : list action) (st : state) : state :=
  fold_left (fun st a => step a st) l st.

End Methods.

(** The constructor: without a configured path the cache is off and the
    promise already fulfilled; with one, the cache is on and [cleanUp()]
    is called: it runs to its first [await], so that [exists] has been
    called on the root when the constructor returns, and its promise is
    stored, pending until the pass has run to its end ([CleanUpDone]). *)
Definition construct (extensionsDownloadPath : option string)
           (fileService : IFileService)
           (extensionGalleryService : IExtensionGalleryService)
           (host : Host) (w : World) : ExtensionsDownloader * state :=
  match extensionsDownloadPath with
  | Some path =>
      if String.eqb path "" then
        ({| extensionsDownloadDir := tmpdir host; cache := 0;
            fileService := fileService;
            extensionGalleryService := extensionGalleryService; host := host |},
         {| world := w; log := []; inflight := []; cleanUpPromise := Fulfilled |})
      else
        ({| extensionsDownloadDir := path; cache := 20;
            fileService := fileService;
            extensionGalleryService := extensionGalleryService; host := host |},
         {| world := w; log := [Exists path]; inflight := [];
            cleanUpPromise := Pending |})
  | None =>
      ({| extensionsDownloadDir := tmpdir host; cache := 0;
          fileService := fileService;
          extensionGalleryService := extensionGalleryService; host := host |},
       {| world := w; log := []; inflight := []; cleanUpPromise := Fulfilled |})
  end.

End Effects.

Arguments exn : clear implicits.
Arguments promise : clear implicits.
Arguments event : clear implicits.
Arguments state : clear implicits.
Arguments IFileService : clear implicits.
Arguments IExtensionGalleryService : clear implicits.
Arguments Host : clear implicits.
Arguments ExtensionsDownloader : clear implicits.

(* ================================================================== *)
(** * An in-memory Blob Store and fetcher, to run the model on *)
(* ================================================================== *)

Module Mem.

Record World : Type :=
  { entries : list IFileStat;   (* the files under the cache root *)
    locked : list URI;          (* locations that cannot be removed *)
    tokens : nat }.             (* unique tokens handed out so far *)

Definition Err := string.

Definition root : URI := "/cache".

Definition has (location : URI) (w : World) : bool :=
  existsb (fun s => String.eqb (resource s) location) (entries w).

Definition store : IFileService World Err :=
  {| fs_exists := fun location w =>
       (inr (String.eqb location root || has location w), w);
     fs_resolve := fun location w =>
       if String.eqb location root
       then (inr {| children := Some (entries w) |}, w)
       else (inl "ENOENT", w);
     fs_del := fun location w =>
       if existsb (String.eqb location) (locked w) then (inl "EPERM", w)
       else if has location w then
         (inr tt,
          {| entries := filter (fun s => negb (String.eqb (resource s) location)) (entries w);
             locked := locked w; tokens := tokens w |})
       else (inl "ENOENT", w) |}.

Definition basename (location : URI) : string :=
  substring (String.length root + 1) (String.length location) location.

Definition fetcher : IExtensionGalleryService World Err :=
  {| gallery_download := fun _ location _ w =>
       (inr tt,
        {| entries := entries w ++ [{| name := basename location; resource := location |}];
           locked := locked w; tokens := tokens w |}) |}.

Fixpoint token (n : nat) : string :=
  match n with
  | O => "t"
  | S n' => String "t" (token n')
  end.

Definition platform : Host World :=
  {| tmpdir := "/tmp";
     generateUuid := fun w =>
       (token (tokens w),
        {| entries := entries w; locked := locked w; tokens := S (tokens w) |});
     finishes_next := fun _ => O |}.

Definition disk (names : list string) (locked : list string) : World :=
  {| entries := List.map (fun n => {| name := n; resource := joinPath root n |}) names;
     locked := List.map (joinPath root) locked;
     tokens := 0 |}.

(** A downloader with the cache on and a retention limit of [limit]. *)
Definition cached (limit : Z) : ExtensionsDownloader World Err :=
  {| extensionsDownloadDir := root; cache := limit;
     fileService := store; extensionGalleryService := fetcher; host := platform |}.

Definition started (w : World) : state World Err :=
  {| world := w; log := []; inflight := []; cleanUpPromise := Pending |}.

Definition ready (w : World) : state World Err :=
  {| world := w; log := []; inflight := []; cleanUpPromise := Fulfilled |}.

(** Two operation contexts. *)
Definition install : InstallOperation := 1%nat.
Definition update : InstallOperation := 2%nat.

Definition ext (i v : string) : IGalleryExtension :=
  {| g_identifier := {| id := i; uuid := None |}; g_version := v |}.

(** A cache root with two files that are no artifacts and cannot be
    removed. *)
Definition lockedDisk : World := disk ["x"; "y"] ["x"; "y"].

(** A cache root with an old and a new version of one package and a
    file that is no artifact. *)
Definition staleDisk : World := disk ["a.a-1.0.0"; "junk"; "a.a-1.2.0"] [].


(** The downloader the constructor builds over the cache root, and the
    state it leaves. *)
Definition configured (w : World) : ExtensionsDownloader World Err * state World Err :=
  construct (Some root) store fetcher platform w.

(** A downloader with the cache off. *)
Definition uncached : ExtensionsDownloader World Err :=
  {| extensionsDownloadDir := "/tmp"; cache := 0;
     fileService := store; extensionGalleryService := fetcher; host := platform |}.

End Mem.

(* ================================================================== *)
(** * Shapes of names, used to state the properties *)
(* ================================================================== *)

(** [[^.]+\..+]: a non-empty prefix without a dot, a dot, a non-empty
    rest without a line terminator. *)
Definition id_shape (i : string) : Prop :=
  exists p r, i = p +++ "." +++ r /\ Str.run_of not_dot p /\ Str.run_of any_char r.

(** [\d+\.\d+\.\d+] *)
Definition version_shape (v : string) : Prop :=
  exists a b c, v = a +++ "." +++ b +++ "." +++ c /\
                Str.run_of digit a /\ Str.run_of digit b /\ Str.run_of digit c.

Fixpoint has_dash_digit (s : string) : bool :=
  match s with
  | String a ((String b _) as s') =>
      (Ascii.eqb a dash && digit b) || has_dash_digit s'
  | _ => false
  end.

Definition identity (i v : string) : ExtensionIdentifierWithVersion :=
  {| identifier := {| id := i; uuid := None |}; version := v |}.

(* ================================================================== *)
(** * Vocabulary of the reconciliation properties *)
(* ================================================================== *)

Definition entryId (e : entry) : string := id (identifier (fst e)).

Definition location (e : entry) : URI := resource (snd e).

(** The children with a name that parses, with their identity, in the
    order of the listing. *)
Definition recognized (children : list IFileStat) : list entry :=
  flat_map (fun stat => match parse (name stat) with
                        | Some extension => [(extension, stat)]
                        | None => []
                        end) children.

(** The locations of the children with a name that does not parse. *)
Definition unrecognized (children : list IFileStat) : list URI :=
  flat_map (fun stat => match parse (name stat) with
                        | Some _ => []
                        | None => [resource stat]
                        end) children.

(** Package ids in the order of their first sighting. *)
Definition firstSeen (ids : list string) : list string :=
  fold_left (fun seen k => if existsb (String.eqb k) seen then seen else seen ++ [k])
            ids [].

Section Classes.
Context {T : Type} (getExtensionIdentifier : T -> IExtensionIdentifier).

Definition idOf (e : T) : string := id (getExtensionIdentifier e).

(** The entries of one package, in the order of the listing. *)
Definition versionsOf (k : string) (l : list T) : list T :=
  filter (fun e => String.eqb (idOf e) k) l.
End Classes.

(** The versions of the package of [e] found in the listing. *)
Definition packageOf (e : entry) (children : list IFileStat) : list entry :=
  versionsOf (fun e : entry => identifier (fst e)) (entryId e) (recognized children).

(** [e] is at least as new as [e']. *)
Definition newerEq (e e' : entry) : Prop :=
  (Semver.compare (version (fst e')) (version (fst e)) <= 0)%Z.

(** The groups of the listing, each sorted newest first. *)
Definition sortedGroups (children : list IFileStat) : list (list entry) :=
  List.map (Arr.sort byVersionDesc)
           (groupByExtension (fun e : entry => identifier (fst e)) (recognized children)).

(** The locations of the newest entry of each group, in the order of the
    groups. *)
Definition kept (children : list IFileStat) : list URI :=
  flat_map (fun p => List.map location (firstn 1 p)) (sortedGroups children).

(** The location of the newest entry of package [k]. *)
Definition newestOf (k : string) (children : list IFileStat) : option URI :=
  option_map location
    (hd_error (Arr.sort byVersionDesc
                 (versionsOf (fun e : entry => identifier (fst e)) k
                             (recognized children)))).

(** The locations of all the other entries of the groups. *)
Definition outdated (children : list IFileStat) : list URI :=
  flat_map (fun p => List.map location (skipn 1 p)) (sortedGroups children).

(** The locations a pass deletes, given the retention limit and the
    listing: the unrecognized, the outdated, and the leading kept
    representatives in excess of the limit. *)
Definition marked (cache : Z) (children : list IFileStat) : list URI :=
  unrecognized children ++ outdated children ++
  firstn (Z.to_nat (Z.max 0 (Z.of_nat (List.length (kept children)) - cache)))
         (kept children).

(** The calls a list of events makes to the Artifact Fetcher. *)
Definition fetches {Err} (l : list (event Err)) : list (event Err) :=
  filter (fun e => match e with Download _ _ _ => true | _ => false end) l.

(** The errors a list of events reports to the log. *)
Definition errorsLogged {Err} (l : list (event Err)) : list (event Err) :=
  filter (fun e => match e with LogError _ => true | _ => false end) l.

(** The deletions a list of events reports as failed. *)
Definition failedDeletions {Err} (l : list (event Err)) : list (event Err) :=
  filter (fun e => match e with Settled _ false => true | _ => false end) l.

(** What the pass logs when it starts the deletions of [toDelete]. *)
Definition issued {Err} (toDelete : list URI) : list (event Err) :=
  flat_map (fun resource => [Trace "Deleting vsix from cache" (Some resource);
                             Del resource]) toDelete.

Definition settledOk {Err} (done : list URI) : list (event Err) :=
  List.map (fun resource => Settled resource true) done.

(** The listing of the retention example of the specification: package
    [a.a] in versions 1.0.0 and 1.2.0, package [b.b] in version 2.0.0. *)
Definition retentionListing : list IFileStat :=
  [file "a.a-1.0.0"; file "a.a-1.2.0"; file "b.b-2.0.0"].

(** Triples in lexicographic order. *)
Definition lex_le (x y : Semver.triple) : Prop :=
  let '(a1, a2, a3) := x in
  let '(b1, b2, b3) := y in
  (a1 < b1 \/ (a1 = b1 /\ (a2 < b2 \/ (a2 = b2 /\ a3 <= b3))))%N.

(** The version of [e] reads as three numbers. *)
Definition readable (e : entry) : Prop :=
  exists t, Semver.read (version (fst e)) = Some t.

(** What waiting for the deletions [promises] from the state [st] may
    come to: [done] have finished, [rest] are left in flight. *)
Definition settles {World Err} (promises : list URI) (st : state World Err)
           (R : outcome (exn Err) unit * state World Err) : Prop :=
  exists done rest,
    Permutation (done ++ rest) promises /\
    inflight (snd R) = inflight st ++ rest /\
    cleanUpPromise (snd R) = cleanUpPromise st /\
    ((fst R = Returned tt /\ rest = [] /\
      log (snd R) = log st ++ settledOk done)
     \/
     (exists e ok r,
         fst R = Threw (Rejected e) /\ done = ok ++ [r] /\
         log (snd R) = log st ++ settledOk ok ++ [Settled r false])).

Section Deleting.
Context {World Err : Type} (fs : IFileService World Err).



End Deleting.



(** The tokens a list of events asks for, and the checks it makes. *)
Definition tokens {Err} (l : list (event Err)) : list (event Err) :=
  filter (fun e => match e with Uuid => true | _ => false end) l.

Definition checks {Err} (l : list (event Err)) : list (event Err) :=
  filter (fun e => match e with Exists _ => true | _ => false end) l.

(** The listing once the deletions of [toDelete] have all succeeded. *)
Definition survivors (toDelete : list URI) (children : list IFileStat) : list IFileStat :=
  filter (fun stat => negb (existsb (String.eqb (resource stat)) toDelete)) children.

(** The events a download may log: a token, a check, a fetch. *)
Definition ofDownload {Err} (e : event Err) : bool :=
  match e with
  | Uuid | Exists _ | Download _ _ _ => true
  | _ => false
  end.

(** The events only a reconciliation pass logs: the listing of the root,
    a trace, an error. *)
Definition ofPassOnly {Err} (e : event Err) : bool :=
  match e with
  | Resolve _ | Trace _ _ | LogError _ => true
  | _ => false
  end.

(** The events a reconciliation pass never logs: a token, a fetch. *)
Definition ofFetching {Err} (e : event Err) : bool :=
  match e with
  | Uuid | Download _ _ _ => true
  | _ => false
  end.

(** The promise of the pass is pending or fulfilled. *)
Definition settled_or_pending {World Err} (st : state World Err) : Prop :=
  cleanUpPromise st = Pending \/ cleanUpPromise st = Fulfilled.

(* ================================================================== *)
(** * Collaborators with fixed answers, to run the failure paths on *)
(* ================================================================== *)

Module Stub.

Definition Err := string.

(** A Blob Store that answers [found] to every check and [listing] to
    every listing, and deletes whatever it is asked to. *)
Definition store (found : Err + bool) (listing : Err + FolderStat)
  : IFileService unit Err :=
  {| fs_exists := fun _ w => (found, w);
     fs_resolve := fun _ w => (listing, w);
     fs_del := fun _ w => (inr tt, w) |}.

(** A fetcher that answers [fetched] to every call. *)
Definition fetcher (fetched : Err + unit) : IExtensionGalleryService unit Err :=
  {| gallery_download := fun _ _ _ w => (fetched, w) |}.

Definition platform : Host unit :=
  {| tmpdir := "/tmp";
     generateUuid := fun w => ("t", w);
     finishes_next := fun _ => O |}.

Definition cached (found : Err + bool) (listing : Err + FolderStat)
           (fetched : Err + unit) : ExtensionsDownloader unit Err :=
  {| extensionsDownloadDir := "/cache"; cache := 20;
     fileService := store found listing;
     extensionGalleryService := fetcher fetched;
     host := platform |}.

Definition started : state unit Err :=
  {| world := tt; log := []; inflight := []; cleanUpPromise := Pending |}.

Definition ready : state unit Err :=
  {| world := tt; log := []; inflight := []; cleanUpPromise := Fulfilled |}.

End Stub.

(** A listing that needs no pruning: one version of each of two
    packages. *)
Definition prunedListing : list IFileStat :=
  [file "a.a-1.2.0"; file "b.b-2.0.0"].

(* ================================================================== *)
(** * Properties of strings and of the matcher *)
(* ================================================================== *)

Module StrFacts.

Lemma append_nil_r s : s +++ "" = s.
Proof. induction s; simpl; congruence. Qed.

Lemma append_assoc s1 s2 s3 : (s1 +++ s2) +++ s3 = s1 +++ s2 +++ s3.
Proof. induction s1; simpl; congruence. Qed.

Lemma length_append s1 s2 :
  String.length (s1 +++ s2) = String.length s1 + String.length s2.
Proof. induction s1; simpl; congruence. Qed.

Lemma substring_prefix s1 s2 :
  substring 0 (String.length s1) (s1 +++ s2) = s1.
Proof.
  induction s1 as [|a s1 IH]; simpl.
  - destruct s2; reflexivity.
  - now rewrite IH.
Qed.

Lemma consumed_append s1 s2 : Str.consumed (s1 +++ s2) s2 = s1.
Proof.
  unfold Str.consumed. rewrite length_append.
  replace (String.length s1 + String.length s2 - String.length s2)
    with (String.length s1) by lia.
  apply substring_prefix.
Qed.

Lemma all_append p s1 s2 :
  Str.all p (s1 +++ s2) = Str.all p s1 && Str.all p s2.
Proof.
  induction s1 as [|a s1 IH]; simpl; [reflexivity|].
  now rewrite IH, andb_assoc.
Qed.

Lemma map_append f s1 s2 :
  Str.map f (s1 +++ s2) = Str.map f s1 +++ Str.map f s2.
Proof. induction s1; simpl; congruence. Qed.

Lemma map_id_on f p s :
  (forall a, p a = true -> f a = a) -> Str.all p s = true -> Str.map f s = s.
Proof.
  intros Hf. induction s as [|a s IH]; simpl; [reflexivity|].
  intros H. apply andb_true_iff in H as [Ha Hs].
  now rewrite (Hf a Ha), IH.
Qed.

Lemma all_map p f s :
  (forall a, p (f a) = p a) -> Str.all p (Str.map f s) = Str.all p s.
Proof.
  intros Hf. induction s as [|a s IH]; simpl; [reflexivity|].
  now rewrite Hf, IH.
Qed.

Lemma all_impl (p q : ascii -> bool) s :
  (forall a, p a = true -> q a = true) -> Str.all p s = true -> Str.all q s = true.
Proof.
  intros Hpq. induction s as [|a s IH]; simpl; [reflexivity|].
  intros H. apply andb_true_iff in H as [Ha Hs].
  now rewrite (Hpq a Ha), IH.
Qed.

Lemma map_nonempty f s : s <> "" -> Str.map f s <> "".
Proof. destruct s; simpl; congruence. Qed.

Lemma run_of_cons p a s :
  p a = true -> Str.all p s = true -> Str.run_of p (String a s).
Proof. intros Ha Hs. split; [discriminate|]. simpl. now rewrite Ha, Hs. Qed.

(** A name splits in one way only at the dash in front of a dash-free
    suffix. *)
Lemma split_at_last_dash i1 v1 i2 v2 :
  i1 +++ "-" +++ v1 = i2 +++ "-" +++ v2 ->
  Str.all (Str.not_char dash) v1 = true ->
  Str.all (Str.not_char dash) v2 = true ->
  i1 = i2 /\ v1 = v2.
Proof.
  revert i2. induction i1 as [|a i1 IH]; intros [|b i2] E H1 H2; simpl in E.
  - injection E as ->. now split.
  - injection E as <- ->. rewrite all_append in H1. simpl in H1.
    rewrite andb_false_r in H1. discriminate.
  - injection E as -> <-. rewrite all_append in H2. simpl in H2.
    rewrite andb_false_r in H2. discriminate.
  - injection E as -> E. destruct (IH _ E H1 H2) as [-> ->]. now split.
Qed.

End StrFacts.

Module RegexFacts.
Import StrFacts.

Lemma plus_loop_sound {A} p s (k : string -> option A) x :
  plus_loop p s k = Some x ->
  exists s1 s2, s = s1 +++ s2 /\ Str.run_of p s1 /\ k s2 = Some x.
Proof.
  induction s as [|a s IH]; simpl; [discriminate|].
  destruct (p a) eqn:Ha; [|discriminate].
  destruct (plus_loop p s k) as [y|] eqn:E.
  - intros [= ->]. destruct (IH eq_refl) as (s1 & s2 & -> & [_ H1] & Hk).
    exists (String a s1), s2. split; [reflexivity|]. split; [|assumption].
    now apply run_of_cons.
  - intros Hk. exists (String a ""), s. split; [reflexivity|]. split; [|assumption].
    now apply run_of_cons.
Qed.

Lemma plus_loop_complete {A} p s1 s2 (k : string -> option A) :
  Str.run_of p s1 -> k s2 <> None -> plus_loop p (s1 +++ s2) k <> None.
Proof.
  intros [Hne Hall] Hk. induction s1 as [|a s1 IH]; [congruence|].
  simpl in *. apply andb_true_iff in Hall as [Ha Hall]. rewrite Ha.
  destruct s1 as [|b s1].
  - simpl. destruct (plus_loop p s2 k); [discriminate|assumption].
  - destruct (plus_loop p (String b s1 +++ s2) k) eqn:E; [discriminate|].
    exfalso. apply IH; [discriminate|assumption|reflexivity].
Qed.

Lemma run_sound {A} r : forall s c (k : string -> captures -> option A) x,
  run r s c k = Some x ->
  exists s1 s2 c', s = s1 +++ s2 /\ matches r s1 c c' /\ k s2 c' = Some x.
Proof.
  induction r as [p|p|r1 IH1 r2 IH2|i r IH]; intros s c k x H; simpl in H.
  - destruct s as [|a s]; [discriminate|].
    destruct (p a) eqn:Ha; [|discriminate].
    exists (String a ""), s, c. split; [reflexivity|]. split; [|assumption].
    now apply M_Class.
  - apply plus_loop_sound in H as (s1 & s2 & -> & Hrun & Hk).
    exists s1, s2, c. split; [reflexivity|]. split; [|assumption].
    now apply M_Plus.
  - apply IH1 in H as (s1 & s2 & c1 & -> & H1 & H).
    apply IH2 in H as (s3 & s4 & c2 & -> & H2 & Hk).
    exists (s1 +++ s3), s4, c2. rewrite append_assoc.
    split; [reflexivity|]. split; [|assumption]. eapply M_Cat; eassumption.
  - apply IH in H as (s1 & s2 & c1 & -> & H1 & Hk).
    rewrite consumed_append in Hk.
    exists s1, s2, (set_capture i s1 c1). split; [reflexivity|]. split; [|assumption].
    now apply M_Group.
Qed.

Lemma run_complete {A} r s1 c c' :
  matches r s1 c c' ->
  forall s2 (k : string -> captures -> option A),
    k s2 c' <> None -> run r (s1 +++ s2) c k <> None.
Proof.
  induction 1 as [p a c Ha|p s c Hrun|r1 r2 s1 s3 c c1 c2 _ IH1 _ IH2|i r s c c1 _ IH];
    intros s2 k Hk; simpl.
  - now rewrite Ha.
  - now apply plus_loop_complete.
  - rewrite append_assoc. apply IH1. now apply IH2.
  - apply IH. now rewrite consumed_append.
Qed.

Lemma exec_sound r s c : exec r s = Some c -> matches r s no_captures c.
Proof.
  unfold exec. intros H.
  apply run_sound in H as (s1 & s2 & c' & -> & Hm & Hk).
  destruct s2; [|discriminate]. injection Hk as ->.
  now rewrite append_nil_r.
Qed.

Lemma exec_complete r s c :
  matches r s no_captures c -> exec r s <> None.
Proof.
  intros Hm. unfold exec. rewrite <- (append_nil_r s).
  now apply (run_complete _ _ _ _ Hm).
Qed.

End RegexFacts.

(* ================================================================== *)
(** * The naming scheme: [parse] and [cacheName] *)
(* ================================================================== *)

Module NameFacts.
Import StrFacts RegexFacts.

Ltac inv H := inversion H; subst; clear H.

Lemma is_char_eq c a : Str.is_char c a = true -> a = c.
Proof. unfold Str.is_char. apply Ascii.eqb_eq. Qed.

Lemma digit_not_dash a : digit a = true -> Str.not_char dash a = true.
Proof.
  unfold digit, Str.not_char. intros H.
  destruct (Ascii.eqb_spec a dash) as [->|]; [discriminate H|reflexivity].
Qed.

Lemma digit_not_upper a : digit a = true -> Str.is_upper a = false.
Proof.
  unfold digit, Str.is_upper. intros H.
  apply andb_true_iff in H as [_ H]. apply Nat.leb_le in H.
  apply andb_false_iff. left. apply Nat.leb_gt. lia.
Qed.

Lemma lower_char_digit a : digit a = true -> Str.lower_char a = a.
Proof. intros H. unfold Str.lower_char. now rewrite digit_not_upper. Qed.

Lemma lower_char_is_dot a : Ascii.eqb (Str.lower_char a) dot = Ascii.eqb a dot.
Proof. destruct a as [[] [] [] [] [] [] [] []]; reflexivity. Qed.

Lemma lower_char_any a : any_char (Str.lower_char a) = any_char a.
Proof. destruct a as [[] [] [] [] [] [] [] []]; reflexivity. Qed.

Lemma version_no_dash v :
  version_shape v -> Str.all (Str.not_char dash) v = true.
Proof.
  intros (a & b & c & -> & [_ Ha] & [_ Hb] & [_ Hc]).
  rewrite !all_append. simpl.
  rewrite (all_impl _ _ _ digit_not_dash Ha), (all_impl _ _ _ digit_not_dash Hb),
    (all_impl _ _ _ digit_not_dash Hc).
  reflexivity.
Qed.

Lemma version_lower v : version_shape v -> Str.toLowerCase v = v.
Proof.
  intros (a & b & c & -> & [_ Ha] & [_ Hb] & [_ Hc]).
  unfold Str.toLowerCase. rewrite !map_append. simpl.
  now rewrite !(map_id_on _ _ _ lower_char_digit) by assumption.
Qed.

Lemma run_of_nonempty p s : Str.run_of p s -> exists a s', s = String a s'.
Proof. intros [H _]. destruct s; [congruence|eauto]. Qed.

Lemma id_shape_nonempty i : id_shape i -> exists a s, i = String a s.
Proof.
  intros (p & r & -> & Hp & _).
  destruct (run_of_nonempty _ _ Hp) as (a & s & ->). simpl. eauto.
Qed.

Lemma version_shape_nonempty v : version_shape v -> exists a s, v = String a s.
Proof.
  intros (a & b & c & -> & Ha & _).
  destruct (run_of_nonempty _ _ Ha) as (x & s & ->). simpl. eauto.
Qed.

(** What a match of the pattern says about the name and the groups. *)
Lemma pattern_inv s c0 c :
  matches ExtensionIdVersionRegex s c0 c ->
  exists i v, s = i +++ "-" +++ v /\ id_shape i /\ version_shape v /\
              c 1%nat = Some i /\ c 2%nat = Some v.
Proof.
  unfold ExtensionIdVersionRegex. simpl. intros H.
  repeat match goal with
         | H : matches (Cat _ _) _ _ _ |- _ => inv H
         | H : matches (Group _ _) _ _ _ |- _ => inv H
         | H : matches (Class _) _ _ _ |- _ => inv H
         | H : matches (PlusClass _) _ _ _ |- _ => inv H
         | H : Str.is_char _ _ = true |- _ => apply is_char_eq in H; subst
         end.
  do 2 eexists. split; [reflexivity|].
  split; [do 2 eexists; split; [reflexivity|]; split; assumption|].
  split; [do 3 eexists; split; [reflexivity|]; split; [|split]; assumption|].
  split; reflexivity.
Qed.

Lemma pattern_intro i v c0 :
  id_shape i -> version_shape v ->
  matches ExtensionIdVersionRegex (i +++ "-" +++ v) c0
          (set_capture 2 v (set_capture 1 i c0)).
Proof.
  intros (p & r & -> & Hp & Hr) (a & b & c & -> & Ha & Hb & Hc).
  unfold ExtensionIdVersionRegex. simpl.
  apply M_Cat with (c1 := set_capture 1 (p +++ "." +++ r) c0).
  - apply M_Group. apply M_Cat with (c1 := c0); [now apply M_Plus|].
    apply (M_Cat _ _ "." r c0 c0); [now apply M_Class|now apply M_Plus].
  - apply (M_Cat _ _ "-" _ _ (set_capture 1 (p +++ "." +++ r) c0));
      [now apply M_Class|].
    apply M_Group.
    apply M_Cat with (c1 := set_capture 1 (p +++ "." +++ r) c0); [now apply M_Plus|].
    apply (M_Cat _ _ "." _ _ (set_capture 1 (p +++ "." +++ r) c0));
      [now apply M_Class|].
    apply M_Cat with (c1 := set_capture 1 (p +++ "." +++ r) c0); [now apply M_Plus|].
    apply (M_Cat _ _ "." _ _ (set_capture 1 (p +++ "." +++ r) c0));
      [now apply M_Class|now apply M_Plus].
Qed.

(** [parse] returns an identity exactly on the names "<id>-<version>"
    of that identity, with an id and a version of the right shapes. *)
Lemma parse_Some name e :
  parse name = Some e ->
  exists i v, name = i +++ "-" +++ v /\ id_shape i /\ version_shape v /\
              e = identity i v.
Proof.
  unfold parse. destruct (exec ExtensionIdVersionRegex name) as [m|] eqn:E;
    [|discriminate].
  apply exec_sound, pattern_inv in E as (i & v & -> & Hi & Hv & E1 & E2).
  rewrite E1, E2.
  destruct (id_shape_nonempty _ Hi) as (a1 & s1 & ->).
  destruct (version_shape_nonempty _ Hv) as (a2 & s2 & ->).
  intros [= <-]. exists (String a1 s1), (String a2 s2). auto.
Qed.

Lemma parse_shape i v :
  id_shape i -> version_shape v ->
  parse (i +++ "-" +++ v) = Some (identity i v).
Proof.
  intros Hi Hv.
  destruct (parse (i +++ "-" +++ v)) as [e|] eqn:E.
  - apply parse_Some in E as (i' & v' & E & _ & Hv' & ->).
    apply split_at_last_dash in E as [-> ->]; auto using version_no_dash.
  - exfalso. unfold parse in E.
    destruct (exec ExtensionIdVersionRegex (i +++ "-" +++ v)) as [m|] eqn:Ex.
    + apply exec_sound, pattern_inv in Ex as (i' & v' & Es & Hi' & Hv' & E1 & E2).
      rewrite E1, E2 in E.
      destruct (id_shape_nonempty _ Hi') as (a1 & s1 & ->).
      destruct (version_shape_nonempty _ Hv') as (a2 & s2 & ->).
      discriminate.
    + revert Ex. apply exec_complete with (c := set_capture 2 v (set_capture 1 i no_captures)).
      now apply pattern_intro.
Qed.

Lemma parse_None name :
  parse name = None <->
  ~ exists i v, name = i +++ "-" +++ v /\ id_shape i /\ version_shape v.
Proof.
  split.
  - intros E (i & v & -> & Hi & Hv). rewrite parse_shape in E by assumption.
    discriminate.
  - intros H. destruct (parse name) as [e|] eqn:E; [|reflexivity].
    exfalso. apply H. apply parse_Some in E as (i & v & ? & ? & ? & _). eauto.
Qed.

Lemma toLowerCase_key i v :
  version_shape v ->
  Str.toLowerCase (i +++ "-" +++ v) = Str.toLowerCase i +++ "-" +++ v.
Proof.
  intros Hv. unfold Str.toLowerCase. rewrite !map_append. simpl.
  f_equal. f_equal. now apply version_lower.
Qed.

(** A dot survives lower-casing and none is created by it. *)
Lemma no_dot_lower s :
  Str.all not_dot (Str.toLowerCase s) = Str.all not_dot s.
Proof.
  apply all_map. intros a. unfold not_dot, Str.not_char.
  now rewrite lower_char_is_dot.
Qed.


End NameFacts.

(* ================================================================== *)
(** * Sorting and grouping *)
(* ================================================================== *)

Module ArrFacts.

Section SortFacts.
Context {A : Type} (cmp : A -> A -> Z) (ok : A -> Prop).
Hypothesis cmp_total : forall x y, ok x -> ok y -> (0 < cmp x y)%Z -> (cmp y x <= 0)%Z.
Hypothesis cmp_trans :
  forall x y z, ok x -> ok y -> ok z ->
                (cmp x y <= 0)%Z -> (cmp y z <= 0)%Z -> (cmp x z <= 0)%Z.
Hypothesis cmp_refl : forall x, ok x -> (cmp x x <= 0)%Z.


Lemma insert_In x l y : In y (Arr.insert cmp x l) <-> y = x \/ In y l.
Proof.
  induction l as [|z l IH]; simpl.
  - intuition congruence.
  - destruct (cmp x z <=? 0)%Z; simpl; [intuition congruence|].
    rewrite IH. intuition congruence.
Qed.

Lemma insert_length x l : List.length (Arr.insert cmp x l) = S (List.length l).
Proof.
  induction l as [|z l IH]; simpl; [reflexivity|].
  destruct (cmp x z <=? 0)%Z; simpl; congruence.
Qed.

Lemma insert_headed x l :
  ok x -> Forall ok l -> Arr.headed cmp l -> Arr.headed cmp (Arr.insert cmp x l).
Proof.
  intros Hx Hl Hh. destruct l as [|z l]; simpl.
  - intros y [<-|[]]. now apply cmp_refl.
  - inversion Hl as [|? ? Hz Hl']; subst.
    destruct (cmp x z <=? 0)%Z eqn:E.
    + apply Z.leb_le in E. intros y [<-|Hy]; [now apply cmp_refl|].
      assert (ok y) by (rewrite Forall_forall in Hl; now apply Hl).
      apply cmp_trans with z; auto.
    + apply Z.leb_gt in E. intros y Hy.
      destruct Hy as [<-|Hy]; [now apply cmp_refl|].
      apply insert_In in Hy as [->|Hy].
      * now apply cmp_total.
      * apply Hh. now right.
Qed.

Lemma sort_In l y : In y (Arr.sort cmp l) <-> In y l.
Proof.
  induction l as [|x l IH]; simpl; [tauto|].
  rewrite insert_In, IH. intuition congruence.
Qed.

Lemma sort_length l : List.length (Arr.sort cmp l) = List.length l.
Proof.
  induction l as [|x l IH]; simpl; [reflexivity|].
  now rewrite insert_length, IH.
Qed.

Lemma sort_headed l : Forall ok l -> Arr.headed cmp (Arr.sort cmp l).
Proof.
  induction 1 as [|x l Hx Hl IH]; simpl; [exact I|].
  apply insert_headed; auto.
  rewrite Forall_forall in *. intros y Hy. apply Hl. now apply sort_In.
Qed.

(** The sorted group starts with an entry that goes in front of all. *)
Lemma sort_head l h t :
  Forall ok l -> Arr.sort cmp l = h :: t ->
  In h l /\ forall y, In y l -> (cmp h y <= 0)%Z.
Proof.
  intros Hl E. split.
  - apply sort_In. rewrite E. now left.
  - intros y Hy. pose proof (sort_headed l Hl) as Hh. rewrite E in Hh.
    apply Hh. rewrite <- E. now apply sort_In.
Qed.

Lemma insert_NoDup x l : ~ In x l -> NoDup l -> NoDup (Arr.insert cmp x l).
Proof.
  induction l as [|z l IH]; simpl; intros Hx Hl.
  - constructor; [tauto|constructor].
  - destruct (cmp x z <=? 0)%Z.
    + constructor; [simpl; tauto|assumption].
    + inversion Hl; subst. constructor.
      * rewrite insert_In. intuition congruence.
      * apply IH; tauto.
Qed.

Lemma sort_NoDup l : NoDup l -> NoDup (Arr.sort cmp l).
Proof.
  induction 1 as [|x l Hx Hl IH]; simpl; [constructor|].
  apply insert_NoDup; auto. now rewrite sort_In.
Qed.
End SortFacts.

Lemma existsb_eqb k l : existsb (String.eqb k) l = true <-> In k l.
Proof.
  rewrite existsb_exists. split.
  - intros (x & Hx & E). apply String.eqb_eq in E. now subst.
  - intros H. exists k. split; [assumption|apply String.eqb_refl].
Qed.

Lemma existsb_eqb_false k l : existsb (String.eqb k) l = false <-> ~ In k l.
Proof.
  rewrite <- existsb_eqb. destruct (existsb (String.eqb k) l); intuition congruence.
Qed.

Lemma firstSeen_snoc ks k :
  firstSeen (ks ++ [k]) =
  if existsb (String.eqb k) (firstSeen ks) then firstSeen ks else firstSeen ks ++ [k].
Proof. unfold firstSeen. now rewrite fold_left_app. Qed.

Lemma firstSeen_In ks : forall k, In k (firstSeen ks) <-> In k ks.
Proof.
  induction ks as [|x ks IH] using rev_ind; intros k; [simpl; tauto|].
  rewrite firstSeen_snoc, in_app_iff. simpl.
  destruct (existsb (String.eqb x) (firstSeen ks)) eqn:E.
  - apply existsb_eqb in E. rewrite IH in *. intuition (subst; auto).
  - rewrite in_app_iff, IH. simpl. tauto.
Qed.

Lemma firstSeen_NoDup ks : NoDup (firstSeen ks).
Proof.
  induction ks as [|x ks IH] using rev_ind; [constructor|].
  rewrite firstSeen_snoc.
  destruct (existsb (String.eqb x) (firstSeen ks)) eqn:E; [assumption|].
  apply existsb_eqb_false in E.
  apply NoDup_app; [assumption|repeat constructor; simpl; tauto|].
  intros y Hy [<-|[]]. contradiction.
Qed.

End ArrFacts.

Module GroupFacts.
Import ArrFacts.

Section Groups.
Context {T : Type} (g : T -> IExtensionIdentifier).

Local Abbreviation class := (versionsOf g).
Local Abbreviation kf := (idOf g).

Lemma class_In k l x : In x (class k l) <-> In x l /\ kf x = k.
Proof.
  unfold versionsOf. rewrite filter_In, String.eqb_eq. tauto.
Qed.

Lemma class_snoc_same l x : class (kf x) (l ++ [x]) = class (kf x) l ++ [x].
Proof.
  unfold versionsOf. rewrite filter_app. simpl. now rewrite String.eqb_refl.
Qed.

Lemma class_snoc_other k l x : k <> kf x -> class k (l ++ [x]) = class k l.
Proof.
  intros H. unfold versionsOf. rewrite filter_app. simpl.
  destruct (String.eqb_spec (kf x) k) as [E|_]; [congruence|].
  apply app_nil_r.
Qed.

Lemma inGroup_class k l x :
  class k l <> [] -> inGroup g x (class k l) = String.eqb k (kf x).
Proof.
  intros Hne. unfold inGroup, areSameExtensions.
  destruct (String.eqb_spec k (kf x)) as [E|E].
  - apply existsb_exists. destruct (class k l) as [|e c] eqn:Ec; [congruence|].
    exists e. split; [now left|].
    assert (He : In e (class k l)) by (rewrite Ec; now left).
    apply class_In in He as [_ He]. apply String.eqb_eq.
    unfold idOf in *. congruence.
  - apply not_true_is_false. intros H. apply existsb_exists in H as (e & He & Ee).
    apply class_In in He as [_ He]. apply String.eqb_eq in Ee.
    unfold idOf in *. congruence.
Qed.

Lemma addToGroup_classes l x ks :
  NoDup ks ->
  (forall k, In k ks -> class k l <> []) ->
  (~ In (kf x) ks -> class (kf x) l = []) ->
  addToGroup g x (List.map (fun k => class k l) ks) =
  List.map (fun k => class k (l ++ [x]))
           (if existsb (String.eqb (kf x)) ks then ks else ks ++ [kf x]).
Proof.
  induction ks as [|k ks IH]; intros Hnd Hne Hnew; simpl.
  - rewrite class_snoc_same, Hnew by tauto. reflexivity.
  - inversion Hnd as [|? ? Hk Hnd']; subst.
    rewrite inGroup_class by (apply Hne; now left).
    rewrite (String.eqb_sym (kf x) k).
    destruct (String.eqb_spec k (kf x)) as [E|E]; simpl.
    + subst k. rewrite class_snoc_same. f_equal.
      apply map_ext_in. intros k' Hk'. symmetry. apply class_snoc_other.
      intros ->. contradiction.
    + rewrite IH; auto.
      * destruct (existsb (String.eqb (kf x)) ks); simpl;
          now rewrite class_snoc_other by assumption.
      * intros k' Hk'. apply Hne. now right.
      * intros H. apply Hnew. simpl. intuition congruence.
Qed.

Lemma groupByExtension_snoc l x :
  groupByExtension g (l ++ [x]) = addToGroup g x (groupByExtension g l).
Proof. unfold groupByExtension. now rewrite fold_left_app. Qed.

(** The groups are the packages, in the order of their first sighting,
    each with its entries in the order of the listing. *)
Lemma groupByExtension_classes l :
  groupByExtension g l =
  List.map (fun k => class k l) (firstSeen (List.map kf l)).
Proof.
  induction l as [|x l IH] using rev_ind; [reflexivity|].
  rewrite groupByExtension_snoc, IH, map_app. simpl. rewrite firstSeen_snoc.
  apply addToGroup_classes.
  - apply firstSeen_NoDup.
  - intros k Hk. apply firstSeen_In, in_map_iff in Hk as (y & <- & Hy).
    intros E. assert (H : In y (class (kf y) l)) by now apply class_In.
    rewrite E in H. exact H.
  - intros Hk. destruct (class (kf x) l) as [|y c] eqn:E; [reflexivity|].
    exfalso. apply Hk, firstSeen_In, in_map_iff. exists y. split.
    + assert (H : In y (class (kf x) l)) by (rewrite E; now left).
      now apply class_In in H.
    + assert (H : In y (class (kf x) l)) by (rewrite E; now left).
      now apply class_In in H.
Qed.

Lemma groups_nonempty l p : In p (groupByExtension g l) -> p <> [].
Proof.
  rewrite groupByExtension_classes. intros H.
  apply in_map_iff in H as (k & <- & Hk).
  apply firstSeen_In, in_map_iff in Hk as (y & <- & Hy).
  intros E. assert (H : In y (class (kf y) l)) by now apply class_In.
  rewrite E in H. exact H.
Qed.

End Groups.
End GroupFacts.

(* ================================================================== *)
(** * Versions are compared as three numbers *)
(* ================================================================== *)

Module SemverFacts.
Import StrFacts NameFacts.


Lemma compare3_le x y : (Semver.compare3 x y <= 0)%Z <-> lex_le x y.
Proof.
  destruct x as [[a1 a2] a3], y as [[b1 b2] b3]. unfold Semver.compare3, lex_le.
  destruct (N.compare_spec a1 b1), (N.compare_spec a2 b2), (N.compare_spec a3 b3);
    simpl; lia.
Qed.

Lemma compare3_gt x y : (0 < Semver.compare3 x y)%Z -> lex_le y x.
Proof.
  destruct x as [[a1 a2] a3], y as [[b1 b2] b3]. unfold Semver.compare3, lex_le.
  destruct (N.compare_spec a1 b1), (N.compare_spec a2 b2), (N.compare_spec a3 b3);
    simpl; lia.
Qed.

Lemma lex_le_trans x y z : lex_le x y -> lex_le y z -> lex_le x z.
Proof.
  destruct x as [[a1 a2] a3], y as [[b1 b2] b3], z as [[c1 c2] c3].
  unfold lex_le. lia.
Qed.

Lemma lex_le_refl x : lex_le x x.
Proof. destruct x as [[a1 a2] a3]. unfold lex_le. lia. Qed.

Lemma digit_not_dot a : digit a = true -> Ascii.eqb a dot = false.
Proof.
  unfold digit. intros H.
  destruct (Ascii.eqb_spec a dot) as [->|]; [discriminate H|reflexivity].
Qed.

Lemma field_dot a rest :
  Str.all digit a = true -> Semver.field (a +++ String dot rest) = (a, Some rest).
Proof.
  induction a as [|x a IH]; simpl; intros H; [reflexivity|].
  apply andb_true_iff in H as [Hx Ha]. rewrite (digit_not_dot _ Hx), (IH Ha).
  reflexivity.
Qed.

Lemma field_last a : Str.all digit a = true -> Semver.field a = (a, None).
Proof.
  induction a as [|x a IH]; simpl; intros H; [reflexivity|].
  apply andb_true_iff in H as [Hx Ha]. rewrite (digit_not_dot _ Hx), (IH Ha).
  reflexivity.
Qed.

Lemma decimal_digits a : forall acc,
  Str.all digit a = true -> exists n, Semver.decimal acc a = Some n.
Proof.
  induction a as [|x a IH]; simpl; intros acc H; [eauto|].
  apply andb_true_iff in H as [Hx Ha]. rewrite Hx. now apply IH.
Qed.

Lemma numeral_digits a : Str.run_of digit a -> exists n, Semver.numeral a = Some n.
Proof.
  intros [Hne Ha]. destruct a as [|x a]; [congruence|].
  unfold Semver.numeral. now apply decimal_digits.
Qed.

(** A three-part numeric version reads as three numbers. *)
Lemma read_version v : version_shape v -> exists t, Semver.read v = Some t.
Proof.
  intros (a & b & c & -> & Ha & Hb & Hc). unfold Semver.read.
  change ("." +++ b +++ "." +++ c) with (String dot (b +++ String dot c)).
  rewrite field_dot by apply Ha. rewrite field_dot by apply Hb.
  rewrite field_last by apply Hc.
  destruct (numeral_digits _ Ha) as [x ->], (numeral_digits _ Hb) as [y ->],
    (numeral_digits _ Hc) as [z ->].
  eauto.
Qed.


Lemma byVersionDesc_total x y :
  readable x -> readable y ->
  (0 < byVersionDesc x y)%Z -> (byVersionDesc y x <= 0)%Z.
Proof.
  intros [tx Hx] [ty Hy]. unfold byVersionDesc, Semver.rcompare, Semver.compare.
  rewrite Hx, Hy. intros H. apply compare3_le. now apply compare3_gt.
Qed.

Lemma byVersionDesc_trans x y z :
  readable x -> readable y -> readable z ->
  (byVersionDesc x y <= 0)%Z -> (byVersionDesc y z <= 0)%Z ->
  (byVersionDesc x z <= 0)%Z.
Proof.
  intros [tx Hx] [ty Hy] [tz Hz]. unfold byVersionDesc, Semver.rcompare, Semver.compare.
  rewrite Hx, Hy, Hz. rewrite !compare3_le. intros H1 H2.
  now apply lex_le_trans with ty.
Qed.

Lemma byVersionDesc_refl x : readable x -> (byVersionDesc x x <= 0)%Z.
Proof.
  intros [tx Hx]. unfold byVersionDesc, Semver.rcompare, Semver.compare.
  rewrite Hx. apply compare3_le, lex_le_refl.
Qed.

End SemverFacts.

(* ================================================================== *)
(** * What [reconcile] computes *)
(* ================================================================== *)

Module ReconcileFacts.
Import ArrFacts GroupFacts SemverFacts NameFacts.

Local Abbreviation gid := (fun e : entry => identifier (fst e)).

Lemma scan_from children : forall toDelete all,
  fold_left
    (fun acc stat =>
       let '(toDelete, all) := acc in
       match parse (name stat) with
       | Some extension => (toDelete, Arr.push all [(extension, stat)])
       | None => (Arr.push toDelete [resource stat], all)
       end)
    children (toDelete, all) =
  (toDelete ++ unrecognized children, all ++ recognized children).
Proof.
  induction children as [|stat children IH]; intros toDelete all; simpl.
  - now rewrite !app_nil_r.
  - destruct (parse (name stat)) as [extension|]; rewrite IH; unfold Arr.push;
      now rewrite <- !app_assoc.
Qed.

Lemma scan_spec children :
  scan children = (unrecognized children, recognized children).
Proof. unfold scan. now rewrite scan_from. Qed.

Lemma pruneGroups_from byExtension : forall toDelete distinct,
  (forall p, In p byExtension -> p <> []) ->
  fold_left
    (fun acc p =>
       match acc with
       | None => None
       | Some (toDelete, distinct) =>
           let p := Arr.sort byVersionDesc p in
           match p with
           | [] => None
           | p0 :: _ =>
               Some (Arr.push toDelete (List.map (fun e => resource (snd e)) (Arr.slice1 p)),
                     Arr.push distinct [resource (snd p0)])
           end
       end)
    byExtension (Some (toDelete, distinct)) =
  Some (toDelete ++ flat_map (fun p => List.map location (skipn 1 p))
                             (List.map (Arr.sort byVersionDesc) byExtension),
        distinct ++ flat_map (fun p => List.map location (firstn 1 p))
                             (List.map (Arr.sort byVersionDesc) byExtension)).
Proof.
  induction byExtension as [|p groups IH]; intros toDelete distinct Hne; simpl.
  - now rewrite !app_nil_r.
  - destruct (Arr.sort byVersionDesc p) as [|p0 t] eqn:E.
    + exfalso. apply (Hne p); [now left|].
      apply length_zero_iff_nil. rewrite <- (sort_length byVersionDesc), E. reflexivity.
    + rewrite IH by (intros q Hq; apply Hne; now right).
      unfold Arr.push, Arr.slice1, location. simpl.
      now rewrite <- !app_assoc.
Qed.

(** The pass never reads the head of an empty group: it computes the
    kept representatives and the three lots of locations to delete. *)
Lemma reconcile_spec cache children :
  reconcile cache children =
  Some (kept children,
        unrecognized children ++ outdated children ++
        firstn (Z.to_nat (Z.max 0 (Z.of_nat (List.length (kept children)) - cache)))
               (kept children)).
Proof.
  unfold reconcile. rewrite scan_spec. unfold pruneGroups.
  rewrite pruneGroups_from by apply groups_nonempty.
  fold (sortedGroups children). fold (kept children). fold (outdated children).
  unfold Arr.push, Arr.slice. simpl. rewrite Nat.sub_0_r.
  now rewrite <- app_assoc.
Qed.

Lemma recognized_In e children :
  In e (recognized children) <->
  In (snd e) children /\ parse (name (snd e)) = Some (fst e).
Proof.
  unfold recognized. rewrite in_flat_map. split.
  - intros (stat & Hs & He). destruct (parse (name stat)) as [x|] eqn:E; [|destruct He].
    destruct He as [<-|[]]. simpl. auto.
  - intros [Hs He]. exists (snd e). split; [assumption|].
    rewrite He. left. now destruct e.
Qed.

Lemma unrecognized_In r children :
  In r (unrecognized children) <->
  exists stat, In stat children /\ parse (name stat) = None /\ resource stat = r.
Proof.
  unfold unrecognized. rewrite in_flat_map. split.
  - intros (stat & Hs & He). destruct (parse (name stat)) as [x|] eqn:E; [destruct He|].
    destruct He as [<-|[]]. eauto.
  - intros (stat & Hs & E & <-). exists stat. split; [assumption|].
    rewrite E. now left.
Qed.

Lemma recognized_readable e children : In e (recognized children) -> readable e.
Proof.
  intros H. apply recognized_In in H as [_ H].
  apply parse_Some in H as (i & v & _ & _ & Hv & E).
  unfold readable. rewrite E. simpl. now apply read_version.
Qed.

Lemma NoDup_map_inj {A B} (f : A -> B) l x y :
  NoDup (List.map f l) -> In x l -> In y l -> f x = f y -> x = y.
Proof.
  induction l as [|a l IH]; simpl; intros Hnd Hx Hy E; [contradiction|].
  inversion Hnd as [|? ? Ha Hnd']; subst.
  destruct Hx as [->|Hx], Hy as [->|Hy]; auto.
  - exfalso. apply Ha. rewrite E. now apply in_map.
  - exfalso. apply Ha. rewrite <- E. now apply in_map.
Qed.

Section Listing.
Variable children : list IFileStat.
Hypothesis distinct_locations : NoDup (List.map resource children).

Lemma recognized_inj e1 e2 :
  In e1 (recognized children) -> In e2 (recognized children) ->
  location e1 = location e2 -> e1 = e2.
Proof.
  intros H1 H2 E. apply recognized_In in H1 as [S1 P1], H2 as [S2 P2].
  assert (Es : snd e1 = snd e2)
    by (apply (NoDup_map_inj resource children); assumption).
  destruct e1 as [x1 s1], e2 as [x2 s2]. simpl in *. subst s2. congruence.
Qed.

Lemma recognized_NoDup : NoDup (recognized children).
Proof.
  clear -distinct_locations. induction children as [|stat l IH]; simpl; [constructor|].
  inversion distinct_locations as [|? ? Hs Hl]; subst.
  destruct (parse (name stat)) as [x|]; simpl; [|now apply IH].
  constructor; [|now apply IH].
  intros H. apply recognized_In in H as [H _]. apply Hs.
  now apply (in_map resource) in H.
Qed.

Lemma unrecognized_not_recognized r e :
  In r (unrecognized children) -> In e (recognized children) -> location e <> r.
Proof.
  intros Hr He E. apply unrecognized_In in Hr as (stat & Hs & Hp & <-).
  apply recognized_In in He as [Hs' Hp'].
  assert (Es : snd e = stat)
    by (apply (NoDup_map_inj resource children); assumption).
  rewrite Es in Hp'. congruence.
Qed.

Local Abbreviation all := (recognized children).
Local Abbreviation ids := (firstSeen (List.map (idOf gid) (recognized children))).
Local Abbreviation sortedOf k :=
  (Arr.sort byVersionDesc (versionsOf gid k (recognized children))).

Lemma sortedGroups_classes : sortedGroups children = List.map (fun k => sortedOf k) ids.
Proof.
  unfold sortedGroups. now rewrite groupByExtension_classes, map_map.
Qed.

Lemma kept_classes :
  kept children = flat_map (fun k => List.map location (firstn 1 (sortedOf k))) ids.
Proof.
  unfold kept. rewrite sortedGroups_classes, !flat_map_concat_map, map_map.
  reflexivity.
Qed.

Lemma outdated_classes :
  outdated children = flat_map (fun k => List.map location (skipn 1 (sortedOf k))) ids.
Proof.
  unfold outdated. rewrite sortedGroups_classes, !flat_map_concat_map, map_map.
  reflexivity.
Qed.

Lemma sortedOf_In k x : In x (sortedOf k) <-> In x all /\ entryId x = k.
Proof. rewrite sort_In. apply class_In. Qed.

Lemma sortedOf_NoDup k : NoDup (sortedOf k).
Proof. apply sort_NoDup, NoDup_filter, recognized_NoDup. Qed.

(** The kept representatives are the newest entries of the packages, in
    the order in which the packages were first seen. *)
Lemma kept_newest :
  List.map Some (kept children) = List.map (fun k => newestOf k children) ids.
Proof.
  rewrite kept_classes.
  assert (H : forall ks, (forall k, In k ks -> In k ids) ->
            List.map Some (flat_map (fun k => List.map location (firstn 1 (sortedOf k))) ks) =
            List.map (fun k => newestOf k children) ks).
  { induction ks as [|k ks IH]; intros Hks; [reflexivity|].
    cbn [flat_map List.map]. rewrite map_app, IH by (intros k' Hk'; apply Hks; now right).
    f_equal. assert (Hk : In k ids) by (apply Hks; now left).
    apply firstSeen_In, in_map_iff in Hk as (y & <- & Hy).
    unfold newestOf. fold (idOf gid y).
    destruct (sortedOf (idOf gid y)) as [|h t] eqn:E; [|reflexivity].
    exfalso. assert (Hin : In y (sortedOf (idOf gid y))) by now apply sortedOf_In.
    rewrite E in Hin. exact Hin. }
  apply H. auto.
Qed.

Lemma kept_In r :
  In r (kept children) <->
  exists k h t, In k ids /\ sortedOf k = h :: t /\ r = location h.
Proof.
  rewrite kept_classes, in_flat_map. split.
  - intros (k & Hk & Hr). destruct (sortedOf k) as [|h t] eqn:E; [destruct Hr|].
    destruct Hr as [<-|[]]. exists k, h, t. auto.
  - intros (k & h & t & Hk & E & ->). exists k. split; [assumption|].
    rewrite E. now left.
Qed.

Lemma outdated_In r :
  In r (outdated children) <->
  exists k h t e, In k ids /\ sortedOf k = h :: t /\ In e t /\ r = location e.
Proof.
  rewrite outdated_classes, in_flat_map. split.
  - intros (k & Hk & Hr). destruct (sortedOf k) as [|h t] eqn:E; [destruct Hr|].
    simpl in Hr. apply in_map_iff in Hr as (e & <- & He).
    exists k, h, t, e. auto.
  - intros (k & h & t & e & Hk & E & He & ->). exists k. split; [assumption|].
    rewrite E. simpl. now apply in_map.
Qed.

(** The head of a sorted group is a representative of the package: an
    entry of it that is at least as new as every other. *)
Lemma representative e :
  In e all ->
  exists rep t,
    In (entryId e) ids /\ sortedOf (entryId e) = rep :: t /\
    In rep (packageOf e children) /\
    forall e', In e' (packageOf e children) -> newerEq rep e'.
Proof.
  intros He. unfold packageOf.
  assert (Hin : In e (versionsOf gid (entryId e) all)) by now apply class_In.
  destruct (sortedOf (entryId e)) as [|rep t] eqn:E.
  - exfalso. apply (sort_In byVersionDesc) in Hin. rewrite E in Hin. exact Hin.
  - exists rep, t. split; [|split; [reflexivity|]].
    + apply firstSeen_In, in_map_iff. exists e. auto.
    + assert (Hok : Forall readable (versionsOf gid (entryId e) all)).
      { apply Forall_forall. intros x Hx. apply class_In in Hx as [Hx _].
        now apply recognized_readable with children. }
      destruct (sort_head byVersionDesc readable byVersionDesc_total
                  byVersionDesc_trans byVersionDesc_refl _ _ _ Hok E) as [Hrep Hmax].
      split; [assumption|]. intros e' He'. apply Hmax. assumption.
Qed.

(** An entry behind the head of its sorted group is not kept. *)
Lemma behind_not_kept k h t e :
  sortedOf k = h :: t -> In e t -> ~ In (location e) (kept children).
Proof.
  intros E He Hk. apply kept_In in Hk as (k' & h' & t' & _ & E' & El).
  assert (He1 : In e (sortedOf k)) by (rewrite E; now right).
  assert (Hh1 : In h' (sortedOf k')) by (rewrite E'; now left).
  apply sortedOf_In in He1 as [He1 Ke], Hh1 as [Hh1 Kh].
  assert (e = h') by now apply recognized_inj.
  subst h'. assert (Ek : k' = k) by congruence. rewrite Ek in E'.
  rewrite E in E'. injection E' as -> ->.
  pose proof (sortedOf_NoDup k) as Hnd. rewrite E in Hnd.
  inversion Hnd. contradiction.
Qed.

Lemma kept_not_outdated r : In r (kept children) -> ~ In r (outdated children).
Proof.
  intros Hk Ho. apply outdated_In in Ho as (k & h & t & e & _ & E & He & ->).
  now apply (behind_not_kept k h t e).
Qed.

Lemma kept_not_unrecognized r : In r (kept children) -> ~ In r (unrecognized children).
Proof.
  intros Hk Hu. apply kept_In in Hk as (k & h & t & _ & E & ->).
  assert (Hh : In h (sortedOf k)) by (rewrite E; now left).
  apply sortedOf_In in Hh as [Hh _].
  now apply (unrecognized_not_recognized _ h Hu Hh).
Qed.

Lemma NoDup_flat_map {A B} (f : A -> list B) l :
  NoDup l ->
  (forall x, In x l -> NoDup (f x)) ->
  (forall x y b, In x l -> In y l -> In b (f x) -> In b (f y) -> x = y) ->
  NoDup (flat_map f l).
Proof.
  induction 1 as [|a l Ha Hl IH]; intros Hf Hd; simpl; [constructor|].
  apply NoDup_app.
  - apply Hf. now left.
  - apply IH.
    + intros x Hx. apply Hf. now right.
    + intros x y b Hx Hy. apply Hd; now right.
  - intros b Hb Hb'. apply in_flat_map in Hb' as (y & Hy & Hby).
    assert (a = y) by (apply (Hd a y b); simpl; auto).
    subst y. contradiction.
Qed.

Lemma kept_NoDup : NoDup (kept children).
Proof.
  rewrite kept_classes. apply NoDup_flat_map.
  - apply firstSeen_NoDup.
  - intros k _. destruct (sortedOf k) as [|h t]; simpl; repeat constructor.
    simpl. tauto.
  - intros k k' r _ _ Hr Hr'.
    destruct (sortedOf k) as [|h t] eqn:E; [destruct Hr|].
    destruct (sortedOf k') as [|h' t'] eqn:E'; [destruct Hr'|].
    destruct Hr as [<-|[]]. destruct Hr' as [El|[]].
    assert (Hh : In h (sortedOf k)) by (rewrite E; now left).
    assert (Hh' : In h' (sortedOf k')) by (rewrite E'; now left).
    apply sortedOf_In in Hh as [Hh Kh], Hh' as [Hh' Kh'].
    assert (h' = h) by now apply recognized_inj.
    congruence.
Qed.

End Listing.

Lemma firstn_index {A} (l : list A) : forall i n r,
  NoDup l -> nth_error l i = Some r -> (In r (firstn n l) <-> i < n)%nat.
Proof.
  induction l as [|a l IH]; intros [|i] [|n] r Hnd Hi; simpl in *;
    try discriminate; try (split; [tauto|lia]).
  - injection Hi as ->. split; [lia|tauto].
  - inversion Hnd as [|? ? Ha Hl]; subst. rewrite (IH i n r Hl Hi).
    split; [|lia]. intros [->|H]; [|lia].
    exfalso. apply Ha. eapply nth_error_In. eassumption.
Qed.

End ReconcileFacts.

(* ================================================================== *)
(** * The effects of the methods *)
(* ================================================================== *)

Module EffectFacts.

Lemma remove_nth_perm {A} (l : list A) : forall i d,
  (i < List.length l)%nat -> Permutation (nth i l d :: remove_nth i l) l.
Proof.
  induction l as [|x l IH]; intros [|i] d H; simpl in *; try lia.
  - reflexivity.
  - rewrite perm_swap. constructor. apply IH. lia.
Qed.

Lemma remove_nth_length {A} (l : list A) : forall i,
  (i < List.length l)%nat -> List.length (remove_nth i l) = (List.length l - 1)%nat.
Proof.
  induction l as [|x l IH]; intros [|i] H; simpl in *; try lia.
  rewrite IH by lia. lia.
Qed.

Section OneDownloader.
Context {World Err : Type}.
Variable this : ExtensionsDownloader World Err.

Local Abbreviation state := (state World Err).

Lemma with_events_nil (st : state) : with_events [] st = st.
Proof. destruct st. unfold with_events. simpl. now rewrite app_nil_r. Qed.

(** Starting the deletions logs a trace and a call for each location,
    in order, and nothing else happens. *)
Lemma issue_all toDelete : forall st : state,
  mapM (fun resource =>
          bind (trace "Deleting vsix from cache" (Some resource))
               (fun _ => del_start resource)) toDelete st =
  (Returned toDelete, with_events (issued toDelete) st).
Proof.
  induction toDelete as [|r l IH]; intros st; simpl.
  - unfold ret. now rewrite with_events_nil.
  - unfold bind at 1. unfold bind at 1. unfold trace, emit at 1.
    unfold del_start, bind at 1. unfold emit at 1. unfold ret at 1.
    unfold bind at 1. rewrite IH. unfold ret.
    f_equal. destruct st. unfold with_events, with_event. simpl.
    now rewrite <- !app_assoc.
Qed.


Lemma del_finish_cases r (st : state) :
  (exists w, del_finish this r st =
             (Returned tt, with_event (Settled r true) (with_world w st))) \/
  (exists e w, del_finish this r st =
               (Threw (Rejected e), with_event (Settled r false) (with_world w st))).
Proof.
  unfold del_finish. destruct (fs_del (fileService this) r (world st)) as [[e|u] w]; eauto.
Qed.

(** Waiting for all the deletions: they finish in some order, and the
    wait ends after the last of them or at the first to fail. *)
Lemma awaitAll_settles fuel : forall promises st,
  (List.length promises <= fuel)%nat ->
  settles promises st (awaitAll this fuel promises st).
Proof.
  induction fuel as [|fuel IH]; intros promises st Hlen.
  - destruct promises as [|first l]; [|simpl in Hlen; lia].
    exists [], []. simpl. rewrite !app_nil_r. repeat split; auto.
  - destruct promises as [|first l].
    + exists [], []. simpl. rewrite !app_nil_r. repeat split; auto.
    + set (promises := first :: l) in *.
      set (i := (finishes_next (host this) (world st) mod List.length promises)%nat).
      assert (Hi : (i < List.length promises)%nat)
        by (apply Nat.mod_upper_bound; subst promises; simpl; lia).
      pose proof (remove_nth_perm promises i first Hi) as Hperm.
      pose proof (remove_nth_length promises i Hi) as Hrest.
      change (awaitAll this (S fuel) promises st)
        with (match del_finish this (nth i promises first) st with
              | (Returned _, st') => awaitAll this fuel (remove_nth i promises) st'
              | (r, st') =>
                  (r, with_inflight (inflight st' ++ remove_nth i promises) st')
              end).
      destruct (del_finish_cases (nth i promises first) st) as [[w E]|(e & w & E)];
        rewrite E.
      * destruct (IH (remove_nth i promises)
                     (with_event (Settled (nth i promises first) true) (with_world w st)))
          as (done & rest & Hp & Hin & Hpr & Hlog).
        { subst promises. simpl in *. lia. }
        exists (nth i promises first :: done), rest.
        split; [simpl; now rewrite Hp|].
        split; [exact Hin|]. split; [exact Hpr|].
        destruct Hlog as [(Hr & -> & Hl)|(e & ok & r & Hr & -> & Hl)].
        -- left. repeat split; auto. rewrite Hl. simpl.
           now rewrite <- app_assoc.
        -- right. exists e, (nth i promises first :: ok), r.
           repeat split; auto. rewrite Hl. simpl. now rewrite <- app_assoc.
      * exists [nth i promises first], (remove_nth i promises).
        split; [exact Hperm|]. simpl.
        split; [reflexivity|]. split; [reflexivity|].
        right. exists e, [], (nth i promises first). repeat split; auto.
Qed.

Lemma Promise_all_settles promises st :
  settles promises st (Promise_all this promises st).
Proof. unfold Promise_all. now apply awaitAll_settles. Qed.


Local Abbreviation dir := (extensionsDownloadDir this).

Local Abbreviation marked := (marked (cache this)).

Lemma reconcile_marked children :
  reconcile (cache this) children = Some (kept children, marked children).
Proof. apply ReconcileFacts.reconcile_spec. Qed.

(** The body of the pass, once the listing is there. *)
Lemma cleanUpBody_listing (st : state) w1 w2 folderStat l :
  fs_exists (fileService this) dir (world st) = (inr true, w1) ->
  fs_resolve (fileService this) dir w1 = (inr folderStat, w2) ->
  children folderStat = Some l ->
  cleanUpBody this st =
  Promise_all this (marked l)
    (with_events (issued (marked l))
       (with_world w2 (with_event (Resolve dir) (with_world w1 (with_event (Exists dir) st))))).
Proof.
  intros Hex Hres Hch. unfold cleanUpBody, cleanUpAfterCheck, bind at 1, await at 1. simpl.
  rewrite Hex. simpl. unfold bind at 1, await at 1. simpl.
  rewrite Hres, Hch, reconcile_marked. unfold bind at 1.
  now rewrite issue_all.
Qed.

Lemma cleanUpBody_not_suspended (st : state) :
  fst (cleanUpBody this st) <> Suspended.
Proof.
  destruct (fs_exists (fileService this) dir (world st)) as [[e|found] w1] eqn:Hex.
  - unfold cleanUpBody, cleanUpAfterCheck, bind at 1, await at 1. simpl. rewrite Hex. discriminate.
  - destruct found.
    + destruct (fs_resolve (fileService this) dir w1) as [[e|folderStat] w2] eqn:Hres.
      * unfold cleanUpBody, cleanUpAfterCheck, bind at 1, await at 1. simpl. rewrite Hex. simpl.
        unfold bind at 1, await at 1. simpl. rewrite Hres. discriminate.
      * destruct (children folderStat) as [l|] eqn:Hch.
        -- rewrite (cleanUpBody_listing st w1 w2 folderStat l Hex Hres Hch).
           match goal with
           | |- fst (Promise_all this ?p ?s) <> _ =>
               destruct (Promise_all_settles p s)
                 as (done & rest & _ & _ & _ & [(E & _)|(e & ok & r & E & _)])
           end; rewrite E; discriminate.
        -- unfold cleanUpBody, cleanUpAfterCheck, bind at 1, await at 1. simpl. rewrite Hex. simpl.
           unfold bind at 1, await at 1. simpl. rewrite Hres, Hch. discriminate.
    + unfold cleanUpBody, cleanUpAfterCheck, bind at 1, await at 1. simpl. rewrite Hex. discriminate.
Qed.

(** Whatever the body does, [cleanUp] returns: a failure of the body
    is logged and nothing is thrown. *)
Lemma cleanUp_cases (st : state) :
  (exists st', cleanUpBody this st = (Returned tt, st') /\
               cleanUp this st = (Returned tt, st')) \/
  (exists e st1, cleanUpBody this st = (Threw e, st1) /\
                 cleanUp this st = (Returned tt, with_event (LogError e) st1)).
Proof.
  pose proof (cleanUpBody_not_suspended st) as H.
  unfold cleanUp, try_catch.
  destruct (cleanUpBody this st) as [[[]|e|] st'].
  - left. eauto.
  - right. eauto.
  - now contradiction H.
Qed.


(** With the listing there, the pass starts every deletion, waits for
    them, and returns; at most one failure is logged. *)
Lemma cleanUp_listing (st : state) w1 w2 folderStat l :
  fs_exists (fileService this) dir (world st) = (inr true, w1) ->
  fs_resolve (fileService this) dir w1 = (inr folderStat, w2) ->
  children folderStat = Some l ->
  exists st' done rest,
    cleanUp this st = (Returned tt, st') /\
    Permutation (done ++ rest) (marked l) /\
    inflight st' = inflight st ++ rest /\
    cleanUpPromise st' = cleanUpPromise st /\
    ((rest = [] /\
      log st' = log st ++ [Exists dir; Resolve dir] ++ issued (marked l) ++
                settledOk done)
     \/
     (exists e ok r,
         done = ok ++ [r] /\
         log st' = log st ++ [Exists dir; Resolve dir] ++ issued (marked l) ++
                   settledOk ok ++ [Settled r false; LogError (Rejected e)])).
Proof.
  intros Hex Hres Hch.
  pose proof (cleanUpBody_listing st w1 w2 folderStat l Hex Hres Hch) as Hbody.
  match type of Hbody with
  | _ = Promise_all this ?p ?s =>
      destruct (Promise_all_settles p s) as (done & rest & Hp & Hin & Hpr & Hlog)
  end.
  rewrite <- Hbody in Hin, Hpr, Hlog. simpl in Hin, Hpr, Hlog.
  unfold cleanUp, try_catch.
  destruct (cleanUpBody this st) as [res st1]. simpl in *.
  destruct Hlog as [(-> & -> & Hl)|(e & ok & r & -> & -> & Hl)].
  - exists st1, done, []. repeat split; auto.
    left. split; [reflexivity|]. rewrite Hl. now rewrite <- !app_assoc.
  - exists (with_event (LogError (Rejected e)) st1), (ok ++ [r]), rest.
    repeat split; auto. right. exists e, ok, r. split; [reflexivity|].
    simpl. rewrite Hl. now rewrite <- !app_assoc.
Qed.

(** Deletions left in flight all finish; their failures are noticed by
    nobody. *)
Lemma drain_finishes fuel : forall st : state,
  (List.length (inflight st) <= fuel)%nat ->
  inflight (drain this fuel st) = [] /\
  cleanUpPromise (drain this fuel st) = cleanUpPromise st /\
  (exists es, log (drain this fuel st) = log st ++ es /\ errorsLogged es = []) /\
  (forall r, In r (inflight st) ->
             exists ok, In (Settled r ok) (log (drain this fuel st))).
Proof.
  induction fuel as [|fuel IH]; intros st Hlen.
  - destruct (inflight st) as [|first l] eqn:E; [|simpl in Hlen; lia].
    simpl. rewrite E. repeat split; auto.
    + exists []. now rewrite app_nil_r.
    + intros r [].
  - simpl. destruct (inflight st) as [|first l] eqn:E.
    + repeat split; auto.
      * exists []. now rewrite app_nil_r.
      * intros r [].
    + set (i := (finishes_next (host this) (world st) mod List.length (first :: l))%nat).
      assert (Hi : (i < List.length (first :: l))%nat)
        by (apply Nat.mod_upper_bound; simpl; lia).
      pose proof (remove_nth_perm (first :: l) i first Hi) as Hperm.
      pose proof (remove_nth_length (first :: l) i Hi) as Hrest.
      set (r0 := nth i (first :: l) first) in *.
      assert (Hst : exists ok w,
                 snd (del_finish this r0 st) =
                 with_event (Settled r0 ok) (with_world w st)).
      { destruct (del_finish_cases r0 st) as [[w ->]|(e & w & ->)]; simpl; eauto. }
      destruct Hst as (ok & w & ->).
      destruct (IH (with_inflight (remove_nth i (first :: l))
                      (with_event (Settled r0 ok) (with_world w st))))
        as (H1 & H2 & (es & H3 & H3') & H4).
      { simpl. simpl in Hrest, Hlen. lia. }
      split; [exact H1|]. split; [exact H2|]. split.
      * exists (Settled r0 ok :: es). split; [|exact H3'].
        rewrite H3. simpl. now rewrite <- app_assoc.
      * intros r Hr. apply (Permutation_in _ (Permutation_sym Hperm)) in Hr.
        destruct Hr as [<-|Hr].
        -- exists ok. rewrite H3. simpl. rewrite !in_app_iff. simpl. auto.
        -- now apply H4.
Qed.

(** Calls do not touch the promise of [cleanUp]. *)
Lemma await_promise {A} e op (st : state) :
  cleanUpPromise (snd (@await World Err A e op st)) = cleanUpPromise st.
Proof. unfold await. simpl. destruct (op (world st)) as [[err|a] w]; reflexivity. Qed.

Lemma del_finish_promise r (st : state) :
  cleanUpPromise (snd (del_finish this r st)) = cleanUpPromise st.
Proof.
  destruct (del_finish_cases r st) as [[w ->]|(e & w & ->)]; reflexivity.
Qed.

Lemma delete_promise location (st : state) :
  cleanUpPromise (snd (delete this location st)) = cleanUpPromise st.
Proof.
  unfold delete. destruct (cache this =? 0)%Z; [|reflexivity].
  unfold bind, del_start, bind, emit, ret. simpl. now rewrite del_finish_promise.
Qed.

(** A download that is let through: the name, the check, and the
    fetch when the location is absent. *)
Lemma downloadExtension_enabled extension operation (st : state) :
  cache this <> 0%Z -> cleanUpPromise st = Fulfilled ->
  downloadExtension this extension operation st =
  let location := joinPath dir (cacheName extension) in
  match fs_exists (fileService this) location (world st) with
  | (inl e, w) => (Threw (Rejected e), with_world w (with_event (Exists location) st))
  | (inr true, w) => (Returned location, with_world w (with_event (Exists location) st))
  | (inr false, w) =>
      let st1 := with_event (Download extension location operation)
                            (with_world w (with_event (Exists location) st)) in
      match gallery_download (extensionGalleryService this)
                             extension location operation w with
      | (inl e, w') => (Threw (Rejected e), with_world w' st1)
      | (inr _, w') => (Returned location, with_world w' st1)
      end
  end.
Proof.
  intros Hc Hp. apply Z.eqb_neq in Hc.
  unfold downloadExtension, bind at 1, awaitCleanUp. rewrite Hp.
  unfold bind at 1, getName. rewrite Hc. unfold ret at 1.
  unfold bind at 1, download, bind at 1, await at 1. simpl.
  destruct (fs_exists (fileService this) (joinPath dir (cacheName extension)) (world st))
    as [[e|[|]] w]; simpl; try reflexivity.
  unfold await. simpl.
  destruct (gallery_download (extensionGalleryService this) extension
              (joinPath dir (cacheName extension)) operation w) as [[e|u] w'];
    reflexivity.
Qed.


Lemma downloadExtension_promise extension operation (st : state) :
  cleanUpPromise (snd (downloadExtension this extension operation st)) =
  cleanUpPromise st.
Proof.
  unfold downloadExtension, bind at 1, awaitCleanUp.
  destruct (cleanUpPromise st) eqn:Hp; try now simpl.
  unfold bind at 1, getName.
  destruct (cache this =? 0)%Z.
  - destruct (generateUuid (host this) (world st)) as [token w].
    unfold bind at 1, download, bind at 1, await at 1. simpl.
    destruct (fs_exists (fileService this) (joinPath dir token) w)
      as [[e|[|]] w']; simpl; try assumption.
    unfold await. simpl.
    destruct (gallery_download (extensionGalleryService this) extension
                (joinPath dir token) operation w') as [[e|u] w'']; simpl; assumption.
  - unfold ret at 1. unfold bind at 1, download, bind at 1, await at 1. simpl.
    destruct (fs_exists (fileService this) (joinPath dir (cacheName extension)) (world st))
      as [[e|[|]] w']; simpl; try assumption.
    unfold await. simpl.
    destruct (gallery_download (extensionGalleryService this) extension
                (joinPath dir (cacheName extension)) operation w') as [[e|u] w''];
      simpl; assumption.
Qed.


Lemma drain_promise fuel : forall st : state,
  cleanUpPromise (drain this fuel st) = cleanUpPromise st.
Proof.
  induction fuel as [|fuel IH]; intros st; simpl.
  - destruct (inflight st); reflexivity.
  - destruct (inflight st) as [|first l]; [reflexivity|].
    rewrite IH. simpl. apply del_finish_promise.
Qed.

Lemma step_fulfilled a (st : state) :
  cleanUpPromise st = Fulfilled -> cleanUpPromise (step this a st) = Fulfilled.
Proof.
  intros Hp. destruct a as [extension operation|location| |]; unfold step.
  - now rewrite downloadExtension_promise.
  - now rewrite delete_promise.
  - now rewrite Hp.
  - now rewrite drain_promise.
Qed.

Lemma steps_fulfilled actions : forall st : state,
  cleanUpPromise st = Fulfilled -> cleanUpPromise (steps this actions st) = Fulfilled.
Proof.
  induction actions as [|a l IH]; intros st Hp; [assumption|].
  simpl. apply IH. now apply step_fulfilled.
Qed.



Lemma afterCheck_listing (s : state) w2 folderStat l :
  fs_resolve (fileService this) dir (world s) = (inr folderStat, w2) ->
  children folderStat = Some l ->
  cleanUpAfterCheck this true s =
  Promise_all this (marked l)
    (with_events (issued (marked l)) (with_world w2 (with_event (Resolve dir) s))).
Proof.
  intros Hres Hch. unfold cleanUpAfterCheck. simpl. unfold bind at 1, await at 1. simpl.
  rewrite Hres, Hch, reconcile_marked. unfold bind at 1.
  now rewrite issue_all.
Qed.

Lemma afterCheck_returns found (s : state) :
  fst (cleanUpAfterCheck this found s) <> Suspended /\
  cleanUpPromise (snd (cleanUpAfterCheck this found s)) = cleanUpPromise s.
Proof.
  enough (H : forall R, R = cleanUpAfterCheck this found s ->
            fst R <> Suspended /\ cleanUpPromise (snd R) = cleanUpPromise s)
    by (apply (H _ eq_refl)).
  intros R HR. destruct found.
  - destruct (fs_resolve (fileService this) dir (world s)) as [[e|folderStat] w2] eqn:Hres.
    + unfold cleanUpAfterCheck in HR. simpl in HR. unfold bind at 1, await at 1 in HR.
      simpl in HR. rewrite Hres in HR. subst R. split; [discriminate|reflexivity].
    + destruct (children folderStat) as [l|] eqn:Hch.
      * rewrite (afterCheck_listing s w2 folderStat l Hres Hch) in HR.
        match type of HR with
        | _ = Promise_all this ?p ?x =>
            destruct (Promise_all_settles p x)
              as (done & rest & _ & _ & Hpr & [(E & _)|(e & ok & r & E & _)])
        end; rewrite <- HR in E, Hpr; rewrite E; (split; [discriminate|exact Hpr]).
      * unfold cleanUpAfterCheck in HR. simpl in HR. unfold bind at 1, await at 1 in HR.
        simpl in HR. rewrite Hres, Hch in HR. subst R. split; [discriminate|reflexivity].
  - unfold cleanUpAfterCheck in HR. simpl in HR. subst R.
    split; [discriminate|reflexivity].
Qed.

(** The rest of the pass, too, returns whatever the store does. *)
Lemma cleanUpResumed_returns (st : state) :
  exists st', cleanUpResumed this st = (Returned tt, st') /\
              cleanUpPromise st' = cleanUpPromise st.
Proof.
  unfold cleanUpResumed, try_catch, bind at 1, answer.
  destruct (fs_exists (fileService this) dir (world st)) as [[e|found] w].
  - eexists. split; reflexivity.
  - destruct (afterCheck_returns found (with_world w st)) as [Hs Hp].
    destruct (cleanUpAfterCheck this found (with_world w st)) as [[[]|e|] s']; simpl in *.
    + eexists. split; [reflexivity|exact Hp].
    + eexists. split; [reflexivity|exact Hp].
    + contradiction.
Qed.

Lemma cleanUpSettles_fulfilled (st : state) :
  cleanUpPromise (cleanUpSettles this st) = Fulfilled.
Proof.
  unfold cleanUpSettles. destruct (cleanUpResumed_returns st) as (st' & -> & _).
  reflexivity.
Qed.


Local Abbreviation fs := (fileService this).










End OneDownloader.
End EffectFacts.

(* ================================================================== *)
(** * The statements of the specification *)
(* ================================================================== *)

Import StrFacts NameFacts ArrFacts GroupFacts SemverFacts ReconcileFacts EffectFacts.

Example parse_ok :
  parse "ms-python.python-2020.5.1" =
  Some {| identifier := {| id := "ms-python.python"; uuid := None |};
          version := "2020.5.1" |}.
Proof. reflexivity. Qed.

Example parse_two_versions :
  parse "a.b-1.2.3-4.5.6" =
  Some {| identifier := {| id := "a.b-1.2.3"; uuid := None |};
          version := "4.5.6" |}.
Proof. reflexivity. Qed.

Example parse_no_dot : parse "python-2020.5.1" = None.
Proof. reflexivity. Qed.

Example parse_two_part : parse "a.b-1.2" = None.
Proof. reflexivity. Qed.

Lemma retentionListing_NoDup : NoDup (List.map resource retentionListing).
Proof. repeat constructor; simpl; intuition discriminate. Qed.

(** C1, as amended.  The kept representatives are the newest entries of
    the packages, one per package, in the order the packages were first
    seen in the listing.  When they outnumber the retention limit, the
    pass deletes exactly the leading excess: the representative at index
    [i] is deleted if and only if [i < length - limit], so the last
    [limit] representatives survive; when they do not outnumber the limit,
    no representative is deleted. *)
Theorem retention_drops_leading_excess (cache : Z) (children : list IFileStat) :
  NoDup (List.map resource children) ->
  exists distinct toDelete,
    reconcile cache children = Some (distinct, toDelete) /\
    List.map Some distinct =
    List.map (fun k => newestOf k children)
             (firstSeen (List.map entryId (recognized children))) /\
    (forall i r, nth_error distinct i = Some r ->
                 (In r toDelete <->
                  (Z.of_nat i < Z.of_nat (List.length distinct) - cache)%Z)) /\
    ((Z.of_nat (List.length distinct) <= cache)%Z ->
     forall r, In r distinct -> ~ In r toDelete).
Proof.
  intros Hnd. rewrite reconcile_spec. do 2 eexists. split; [reflexivity|].
  split; [apply kept_newest|].
  assert (Hidx : forall i r, nth_error (kept children) i = Some r ->
            (In r (unrecognized children ++ outdated children ++
                   firstn (Z.to_nat (Z.max 0 (Z.of_nat (List.length (kept children)) - cache)))
                          (kept children)) <->
             (Z.of_nat i < Z.of_nat (List.length (kept children)) - cache)%Z)).
  { intros i r Hi.
    pose proof (firstn_index (kept children) i
                  (Z.to_nat (Z.max 0 (Z.of_nat (List.length (kept children)) - cache)))
                  r (kept_NoDup children Hnd) Hi) as Hf.
    assert (Hk : In r (kept children)) by (eapply nth_error_In; eassumption).
    rewrite !in_app_iff. split.
    - intros [Hu|[Ho|H]].
      + exfalso. now apply (kept_not_unrecognized children Hnd r).
      + exfalso. now apply (kept_not_outdated children Hnd r).
      + apply Hf in H. lia.
    - intros H. right. right. apply Hf. lia. }
  split; [exact Hidx|].
  intros Hle r Hr H. apply In_nth_error in Hr as [i Hi].
  apply (Hidx i r Hi) in H. lia.
Qed.

Lemma retention_drops_leading_excess_witness :
  NoDup (List.map resource retentionListing) /\
  exists distinct toDelete,
    reconcile 1 retentionListing = Some (distinct, toDelete) /\
    List.map Some distinct =
    List.map (fun k => newestOf k retentionListing)
             (firstSeen (List.map entryId (recognized retentionListing))) /\
    (forall i r, nth_error distinct i = Some r ->
                 (In r toDelete <->
                  (Z.of_nat i < Z.of_nat (List.length distinct) - 1)%Z)) /\
    ((Z.of_nat (List.length distinct) <= 1)%Z ->
     forall r, In r distinct -> ~ In r toDelete).
Proof.
  split; [exact retentionListing_NoDup|].
  apply (retention_drops_leading_excess 1 retentionListing).
  exact retentionListing_NoDup.
Defined.

(** C1, as stated, fails on the retention example of the specification
    with a limit of 1: the representatives are a.a@1.2.0 then b.b@2.0.0,
    and the pass deletes the first of them, not the one beyond the
    limit. *)
Lemma retention_keeps_first_counterexample :
  reconcile 1 retentionListing =
  Some (["/cache/a.a-1.2.0"; "/cache/b.b-2.0.0"],
        ["/cache/a.a-1.0.0"; "/cache/a.a-1.2.0"]) /\
  In "/cache/a.a-1.2.0" ["/cache/a.a-1.0.0"; "/cache/a.a-1.2.0"] /\
  ~ In "/cache/b.b-2.0.0" ["/cache/a.a-1.0.0"; "/cache/a.a-1.2.0"].
Proof.
  split; [reflexivity|]. split; [simpl; auto|].
  simpl. intuition discriminate.
Qed.




(** The newest version of a package survives a pass whose limit is not
    reached, and its older version does not. *)
Example newest_survives_oldest_goes :
  reconcile 20 retentionListing =
  Some (["/cache/a.a-1.2.0"; "/cache/b.b-2.0.0"], ["/cache/a.a-1.0.0"]).
Proof. reflexivity. Qed.

Lemma version_1_0_0 : version_shape "1.0.0".
Proof.
  exists "1", "0", "0". split; [reflexivity|].
  repeat split; try discriminate; reflexivity.
Qed.

Lemma id_shape_lower i : id_shape i -> id_shape (Str.toLowerCase i).
Proof.
  intros (p & r & -> & [Hp1 Hp2] & [Hr1 Hr2]).
  exists (Str.toLowerCase p), (Str.toLowerCase r). split.
  - unfold Str.toLowerCase. rewrite !map_append. reflexivity.
  - split; split.
    + now apply map_nonempty.
    + now rewrite no_dot_lower.
    + now apply map_nonempty.
    + unfold Str.toLowerCase. rewrite all_map; [assumption|]. apply lower_char_any.
Qed.

Lemma getName_enabled {World Err} (this : ExtensionsDownloader World Err) extension st :
  cache this <> 0%Z -> getName this extension st = (Returned (cacheName extension), st).
Proof. intros H. unfold getName. apply Z.eqb_neq in H. now rewrite H. Qed.

Lemma cacheName_split extension :
  version_shape (g_version extension) ->
  cacheName extension =
  Str.toLowerCase (id (g_identifier extension)) +++ "-" +++ g_version extension.
Proof. intros Hv. unfold cacheName, key. simpl. now apply toLowerCase_key. Qed.

(** C2, as amended.  With the cache on, the name of an identity whose
    package id is a non-empty dot-free prefix, a dot and a non-empty rest
    free of line breaks, and whose version is three-part numeric, parses to
    that identity with its package id in lower case (hence to the identity
    itself when the id is in lower case), whether or not the id holds a
    dash in front of a digit; a name parses to an identity only when it is
    the serialization "<id>-<version>" of that identity, with an id and a
    version of these shapes, and every other name parses to nothing. *)
Theorem parse_inverts_cache_name {World Err} (this : ExtensionsDownloader World Err)
        (extension : IGalleryExtension) (st : state World Err) :
  cache this <> 0%Z ->
  id_shape (id (g_identifier extension)) ->
  version_shape (g_version extension) ->
  (exists n,
      getName this extension st = (Returned n, st) /\
      parse n = Some (identity (Str.toLowerCase (id (g_identifier extension)))
                               (g_version extension))) /\
  (forall name e,
      parse name = Some e ->
      name = key e /\ uuid (identifier e) = None /\
      id_shape (id (identifier e)) /\ version_shape (version e)) /\
  (forall name,
      (~ exists i v, name = i +++ "-" +++ v /\ id_shape i /\ version_shape v) ->
      parse name = None).
Proof.
  intros Hc Hi Hv. split; [|split].
  - exists (cacheName extension). split; [now apply getName_enabled|].
    rewrite cacheName_split by assumption.
    apply parse_shape; [now apply id_shape_lower|assumption].
  - intros name e H. apply parse_Some in H as (i & v & -> & Hi' & Hv' & ->).
    unfold key. simpl. auto.
  - intros name H. now apply parse_None.
Qed.

Lemma parse_inverts_cache_name_witness :
  (exists n,
      getName (Mem.cached 20) (Mem.ext "Pub.Name" "1.0.0") (Mem.ready (Mem.disk [] [])) =
      (Returned n, Mem.ready (Mem.disk [] [])) /\
      parse n = Some (identity "pub.name" "1.0.0")) /\
  (forall name e,
      parse name = Some e ->
      name = key e /\ uuid (identifier e) = None /\
      id_shape (id (identifier e)) /\ version_shape (version e)) /\
  (forall name,
      (~ exists i v, name = i +++ "-" +++ v /\ id_shape i /\ version_shape v) ->
      parse name = None).
Proof.
  apply (parse_inverts_cache_name (Mem.cached 20) (Mem.ext "Pub.Name" "1.0.0")
           (Mem.ready (Mem.disk [] []))).
  - simpl. lia.
  - exists "Pub", "Name". split; [reflexivity|].
    repeat split; try discriminate; reflexivity.
  - exact version_1_0_0.
Defined.

Lemma lower_char_not_upper a : Str.is_upper (Str.lower_char a) = false.
Proof. destruct a as [[] [] [] [] [] [] [] []]; reflexivity. Qed.

(** C2, as stated, fails.  The identity (python, 1.0.0) has no dash in
    front of a digit and a three-part version, and its name does not
    parse; the identity (Pub.Name, 1.0.0) comes back as (pub.name, 1.0.0);
    and the name "Pub.Name-1.0.0", which the scheme produces for no
    identity, parses. *)
Lemma parse_roundtrip_counterexample :
  (has_dash_digit "python" = false /\ version_shape "1.0.0" /\
   getName (Mem.cached 20) (Mem.ext "python" "1.0.0") (Mem.ready (Mem.disk [] [])) =
   (Returned "python-1.0.0", Mem.ready (Mem.disk [] [])) /\
   parse "python-1.0.0" = None) /\
  (has_dash_digit "Pub.Name" = false /\
   getName (Mem.cached 20) (Mem.ext "Pub.Name" "1.0.0") (Mem.ready (Mem.disk [] [])) =
   (Returned "pub.name-1.0.0", Mem.ready (Mem.disk [] [])) /\
   parse "pub.name-1.0.0" = Some (identity "pub.name" "1.0.0") /\
   identity "pub.name" "1.0.0" <> identity "Pub.Name" "1.0.0") /\
  (parse "Pub.Name-1.0.0" = Some (identity "Pub.Name" "1.0.0") /\
   forall extension, cacheName extension <> "Pub.Name-1.0.0").
Proof.
  split; [|split].
  - split; [reflexivity|]. split; [exact version_1_0_0|]. split; reflexivity.
  - split; [reflexivity|]. split; [reflexivity|]. split; [reflexivity|discriminate].
  - split; [reflexivity|]. intros extension. unfold cacheName, Str.toLowerCase.
    destruct (key _) as [|a s]; simpl; [discriminate|].
    intros [= Ha _]. pose proof (lower_char_not_upper a) as H.
    rewrite Ha in H. discriminate.
Qed.



Lemma issued_In {Err} (toDelete : list URI) r :
  In r toDelete -> In (Del r) (@issued Err toDelete).
Proof.
  intros H. unfold issued. apply in_flat_map. exists r. simpl. auto.
Qed.

Lemma settledOk_In {Err} (done : list URI) r :
  In r done -> In (Settled r true) (@settledOk Err done).
Proof. intros H. unfold settledOk. now apply in_map with (f := fun x => Settled x true). Qed.




Section Pass.
Context {World Err : Type}.
Variable this : ExtensionsDownloader World Err.
Variable st : state World Err.
Variables (w1 w2 : World) (folderStat : FolderStat) (l : list IFileStat).

Local Abbreviation dir := (extensionsDownloadDir this).

Hypothesis root_exists :
  fs_exists (fileService this) dir (world st) = (inr true, w1).
Hypothesis root_resolves :
  fs_resolve (fileService this) dir w1 = (inr folderStat, w2).
Hypothesis root_listing : children folderStat = Some l.

(** What a pass over the listing [l] does to the log and to the
    deletions it starts. *)
Lemma pass_outcome (distinct toDelete : list URI) :
  reconcile (cache this) l = Some (distinct, toDelete) ->
  exists st' done rest,
    cleanUp this st = (Returned tt, st') /\
    Permutation (done ++ rest) toDelete /\
    inflight st' = inflight st ++ rest /\
    ((rest = [] /\
      log st' = log st ++ [Exists dir; Resolve dir] ++ issued toDelete ++ settledOk done)
     \/
     (exists e ok r,
         done = ok ++ [r] /\
         log st' = log st ++ [Exists dir; Resolve dir] ++ issued toDelete ++
                   settledOk ok ++ [Settled r false; LogError (Rejected e)])) /\
    inflight (drain this (List.length (inflight st')) st') = [] /\
    (exists es, log (drain this (List.length (inflight st')) st') = log st' ++ es /\
                errorsLogged es = []) /\
    (forall r, In r toDelete ->
               In (Del r) (log st') /\
               exists ok, In (Settled r ok)
                             (log (drain this (List.length (inflight st')) st'))).
Proof.
  intros Hrec. rewrite reconcile_spec in Hrec. injection Hrec as <- <-.
  destruct (cleanUp_listing this st w1 w2 folderStat l root_exists root_resolves
              root_listing) as (st' & done & rest & Hrun & Hp & Hin & _ & Hlog).
  fold (marked (cache this) l) in *.
  destruct (drain_finishes this (List.length (inflight st')) st' (le_n _))
    as (Hd1 & _ & (es & Hd3 & Hd3') & Hd4).
  exists st', done, rest.
  split; [exact Hrun|]. split; [exact Hp|]. split; [exact Hin|].
  split; [exact Hlog|]. split; [exact Hd1|]. split; [eauto|].
  intros r Hr. split.
  - destruct Hlog as [(_ & ->)|(e & ok & r0 & _ & ->)];
      rewrite !in_app_iff; right; right; left; now apply issued_In.
  - apply (Permutation_in _ (Permutation_sym Hp)) in Hr.
    apply in_app_iff in Hr as [Hr|Hr].
    + rewrite Hd3.
      destruct Hlog as [(_ & ->)|(e & ok & r0 & -> & ->)].
      * exists true. rewrite !in_app_iff. left. right. right. right.
        now apply settledOk_In.
      * apply in_app_iff in Hr as [Hr|[<-|[]]].
        -- exists true. rewrite !in_app_iff. left. right. right. right. left.
           now apply settledOk_In.
        -- exists false. rewrite !in_app_iff. left. right. right. right. right.
           simpl. auto.
    + apply Hd4. rewrite Hin, in_app_iff. now right.
Qed.
End Pass.

(** C3, as amended.  Once the listing is there, the pass starts every
    marked deletion, in the order of marking and each after its trace,
    before it waits for any; it then returns normally.  If no deletion
    fails the pass has waited for all of them.  Otherwise it stops waiting
    at the first deletion that fails and logs that one failure, once; the
    deletions still in flight are not cancelled: each of them finishes
    later, and a failure among them is logged by nobody. *)
Theorem deletions_fan_out {World Err} (this : ExtensionsDownloader World Err)
        (st : state World Err) (w1 w2 : World) (folderStat : FolderStat)
        (l : list IFileStat) (distinct toDelete : list URI) :
  fs_exists (fileService this) (extensionsDownloadDir this) (world st) = (inr true, w1) ->
  fs_resolve (fileService this) (extensionsDownloadDir this) w1 = (inr folderStat, w2) ->
  children folderStat = Some l ->
  reconcile (cache this) l = Some (distinct, toDelete) ->
  exists st' done rest,
    cleanUp this st = (Returned tt, st') /\
    Permutation (done ++ rest) toDelete /\
    inflight st' = inflight st ++ rest /\
    ((rest = [] /\
      log st' = log st ++ [Exists (extensionsDownloadDir this);
                           Resolve (extensionsDownloadDir this)] ++
                issued toDelete ++ settledOk done)
     \/
     (exists e ok r,
         done = ok ++ [r] /\
         log st' = log st ++ [Exists (extensionsDownloadDir this);
                              Resolve (extensionsDownloadDir this)] ++
                   issued toDelete ++ settledOk ok ++
                   [Settled r false; LogError (Rejected e)])) /\
    inflight (drain this (List.length (inflight st')) st') = [] /\
    (exists es, log (drain this (List.length (inflight st')) st') = log st' ++ es /\
                errorsLogged es = []) /\
    (forall r, In r toDelete ->
               exists ok, In (Settled r ok)
                             (log (drain this (List.length (inflight st')) st'))).
Proof.
  intros Hex Hres Hch Hrec.
  destruct (pass_outcome this st w1 w2 folderStat l Hex Hres Hch distinct toDelete Hrec)
    as (st' & done & rest & H1 & H2 & H3 & H4 & H5 & H6 & H7).
  exists st', done, rest. repeat (split; [assumption|]).
  intros r Hr. now apply H7.
Qed.

Lemma deletions_fan_out_witness :
  exists st' done rest,
    cleanUp (Mem.cached 20) (Mem.started Mem.lockedDisk) = (Returned tt, st') /\
    Permutation (done ++ rest) ["/cache/x"; "/cache/y"] /\
    inflight st' = [] ++ rest /\
    ((rest = [] /\
      log st' = [] ++ [Exists "/cache"; Resolve "/cache"] ++
                issued ["/cache/x"; "/cache/y"] ++ settledOk done)
     \/
     (exists e ok r,
         done = ok ++ [r] /\
         log st' = [] ++ [Exists "/cache"; Resolve "/cache"] ++
                   issued ["/cache/x"; "/cache/y"] ++ settledOk ok ++
                   [Settled r false; LogError (Rejected e)])) /\
    inflight (drain (Mem.cached 20) (List.length (inflight st')) st') = [] /\
    (exists es, log (drain (Mem.cached 20) (List.length (inflight st')) st') = log st' ++ es /\
                errorsLogged es = []) /\
    (forall r, In r ["/cache/x"; "/cache/y"] ->
               exists ok, In (Settled r ok)
                             (log (drain (Mem.cached 20) (List.length (inflight st')) st'))).
Proof.
  apply (deletions_fan_out (Mem.cached 20) (Mem.started Mem.lockedDisk)
           Mem.lockedDisk Mem.lockedDisk
           {| children := Some (Mem.entries Mem.lockedDisk) |}
           (Mem.entries Mem.lockedDisk) [] ["/cache/x"; "/cache/y"]);
    reflexivity.
Defined.

(** C3, as stated, fails when two deletions fail: the pass returns while
    the second deletion is still in flight, and of the two failures only
    the first is logged. *)
Lemma deletion_failures_counterexample :
  fst (cleanUp (Mem.cached 20) (Mem.started Mem.lockedDisk)) = Returned tt /\
  inflight (snd (cleanUp (Mem.cached 20) (Mem.started Mem.lockedDisk))) = ["/cache/y"] /\
  log (drain (Mem.cached 20) 1
         (snd (cleanUp (Mem.cached 20) (Mem.started Mem.lockedDisk)))) =
  [Exists "/cache"; Resolve "/cache";
   Trace "Deleting vsix from cache" (Some "/cache/x"); Del "/cache/x";
   Trace "Deleting vsix from cache" (Some "/cache/y"); Del "/cache/y";
   Settled "/cache/x" false; LogError (Rejected "EPERM");
   Settled "/cache/y" false] /\
  List.length (failedDeletions
                 (log (drain (Mem.cached 20) 1
                         (snd (cleanUp (Mem.cached 20) (Mem.started Mem.lockedDisk)))))) = 2%nat /\
  List.length (errorsLogged
                 (log (drain (Mem.cached 20) 1
                         (snd (cleanUp (Mem.cached 20) (Mem.started Mem.lockedDisk)))))) = 1%nat.
Proof. repeat split; reflexivity. Qed.




(** Where the store accepts the deletions, the files whose names do not
    parse are gone after the pass. *)
Example junk_is_gone :
  Mem.has "/cache/junk"
          (world (snd (cleanUp (Mem.cached 20) (Mem.started Mem.staleDisk)))) = false /\
  Mem.entries (world (snd (cleanUp (Mem.cached 20) (Mem.started Mem.staleDisk)))) =
  [file "a.a-1.2.0"].
Proof. split; reflexivity. Qed.

(** C9.  Whatever the Blob Store does, [cleanUp] returns normally: when
    its body fails, at any step, the failure is logged and nothing is
    thrown; the promise of the pass ends up fulfilled. *)
Theorem cleanUp_never_throws {World Err} (this : ExtensionsDownloader World Err)
        (st : state World Err) :
  exists st',
    cleanUp this st = (Returned tt, st') /\
    (cleanUpBody this st = (Returned tt, st') \/
     exists e st1, cleanUpBody this st = (Threw e, st1) /\
                   st' = with_event (LogError e) st1) /\
    cleanUpPromise (cleanUpCompletes this st) = Fulfilled.
Proof.
  destruct (cleanUp_cases this st) as [(st' & Hb & Hc)|(e & st1 & Hb & Hc)].
  - exists st'. split; [exact Hc|]. split; [now left|].
    unfold cleanUpCompletes. now rewrite Hc.
  - exists (with_event (LogError e) st1). split; [exact Hc|]. split; [right; eauto|].
    unfold cleanUpCompletes. now rewrite Hc.
Qed.

Lemma fetches_app {Err} (l1 l2 : list (event Err)) :
  fetches (l1 ++ l2) = fetches l1 ++ fetches l2.
Proof. apply filter_app. Qed.

(** The in-memory fetcher makes its target exist. *)
Lemma Mem_fetch_makes_exist extension location operation w r w' :
  gallery_download Mem.fetcher extension location operation w = (r, w') ->
  exists w'', fs_exists Mem.store location w' = (inr true, w'').
Proof.
  simpl. intros [= _ <-]. eexists. unfold Mem.has. simpl.
  rewrite existsb_app. simpl. rewrite String.eqb_refl.
  now rewrite !orb_true_r.
Qed.

(** C5.  With the cache on and the pass over, a download checks the
    location of the name of the identity and calls the Artifact Fetcher
    exactly when the check says the location is absent, with the
    extension, that location and the operation it was given; when the
    check fails the fetcher is not called.  Given that a fetch makes its
    target exist (every call of the fetcher leaves the location in the
    store), two downloads of one identity in a row call the fetcher at
    most once. *)
Theorem fetch_only_when_absent {World Err} (this : ExtensionsDownloader World Err)
        (extension : IGalleryExtension) (operation operation' : InstallOperation)
        (st : state World Err) :
  cache this <> 0%Z ->
  cleanUpPromise st = Fulfilled ->
  (forall e location o w r w',
      gallery_download (extensionGalleryService this) e location o w = (r, w') ->
      exists w'', fs_exists (fileService this) location w' = (inr true, w'')) ->
  (forall found w,
      fs_exists (fileService this)
                (joinPath (extensionsDownloadDir this) (cacheName extension)) (world st) =
      (inr found, w) ->
      log (snd (downloadExtension this extension operation st)) =
      log st ++
      Exists (joinPath (extensionsDownloadDir this) (cacheName extension)) ::
      (if found then []
       else [Download extension
                      (joinPath (extensionsDownloadDir this) (cacheName extension))
                      operation])) /\
  (forall e w,
      fs_exists (fileService this)
                (joinPath (extensionsDownloadDir this) (cacheName extension)) (world st) =
      (inl e, w) ->
      downloadExtension this extension operation st =
      (Threw (Rejected e),
       with_world w
         (with_event (Exists (joinPath (extensionsDownloadDir this) (cacheName extension)))
                     st))) /\
  (List.length
     (fetches (log (snd (downloadExtension this extension operation'
                           (snd (downloadExtension this extension operation st))))))
   <= List.length (fetches (log st)) + 1)%nat.
Proof.
  intros Hc Hp Hfetch.
  set (location := joinPath (extensionsDownloadDir this) (cacheName extension)).
  assert (Hone : forall o (s : state World Err),
             cleanUpPromise s = Fulfilled ->
             (List.length (fetches (log (snd (downloadExtension this extension o s))))
              <= List.length (fetches (log s)) + 1)%nat).
  { intros o s Hs. rewrite (downloadExtension_enabled this extension o s Hc Hs).
    fold location. cbv zeta.
    destruct (fs_exists (fileService this) location (world s)) as [[e|[|]] w]; simpl;
      rewrite ?fetches_app; simpl; rewrite ?app_nil_r; try lia.
    destruct (gallery_download (extensionGalleryService this) extension location o w)
      as [[e|u] w']; simpl; rewrite !fetches_app, !length_app; simpl; lia. }
  split; [|split].
  - intros found w Hex.
    rewrite (downloadExtension_enabled this extension operation st Hc Hp).
    fold location. cbv zeta. rewrite Hex. destruct found; simpl; [reflexivity|].
    destruct (gallery_download (extensionGalleryService this) extension location
                operation w) as [[e|u] w']; simpl; now rewrite <- app_assoc.
  - intros e w Hex.
    rewrite (downloadExtension_enabled this extension operation st Hc Hp).
    fold location. cbv zeta. now rewrite Hex.
  - pose proof (downloadExtension_promise this extension operation st) as Hp1.
    rewrite Hp in Hp1.
    remember (downloadExtension this extension operation st) as R eqn:HR.
    rewrite (downloadExtension_enabled this extension operation st Hc Hp) in HR.
    fold location in HR. cbv zeta in HR.
    destruct (fs_exists (fileService this) location (world st)) as [[e|[|]] w] eqn:Hex.
    + subst R. pose proof (Hone operation' _ Hp1) as H.
      simpl in H. rewrite fetches_app in H. simpl in H. rewrite app_nil_r in H. exact H.
    + subst R. pose proof (Hone operation' _ Hp1) as H.
      simpl in H. rewrite fetches_app in H. simpl in H. rewrite app_nil_r in H. exact H.
    + destruct (gallery_download (extensionGalleryService this) extension location
                  operation w) as [r w'] eqn:Hdl.
      destruct (Hfetch _ _ _ _ _ _ Hdl) as [w'' Hex'].
      assert (E : forall s : state World Err,
                 cleanUpPromise s = Fulfilled -> world s = w' ->
                 log (snd (downloadExtension this extension operation' s)) =
                 log s ++ [Exists location]).
      { intros s Hs Hw. rewrite (downloadExtension_enabled this extension operation' s Hc Hs).
        fold location. cbv zeta. rewrite Hw, Hex'. reflexivity. }
      destruct r as [e|u]; subst R; simpl in *; rewrite E by (simpl; auto);
        simpl; rewrite !fetches_app, !length_app; simpl; lia.
Qed.

Lemma fetch_only_when_absent_witness :
  (forall found w,
      fs_exists Mem.store (joinPath "/cache" (cacheName (Mem.ext "a.a" "1.0.0")))
                (world (Mem.ready (Mem.disk [] []))) = (inr found, w) ->
      log (snd (downloadExtension (Mem.cached 20) (Mem.ext "a.a" "1.0.0") Mem.install
                                  (Mem.ready (Mem.disk [] [])))) =
      [] ++
      Exists (joinPath "/cache" (cacheName (Mem.ext "a.a" "1.0.0"))) ::
      (if found then []
       else [Download (Mem.ext "a.a" "1.0.0")
                      (joinPath "/cache" (cacheName (Mem.ext "a.a" "1.0.0"))) Mem.install])) /\
  (forall e w,
      fs_exists Mem.store (joinPath "/cache" (cacheName (Mem.ext "a.a" "1.0.0")))
                (world (Mem.ready (Mem.disk [] []))) = (inl e, w) ->
      downloadExtension (Mem.cached 20) (Mem.ext "a.a" "1.0.0") Mem.install
                        (Mem.ready (Mem.disk [] [])) =
      (Threw (Rejected e),
       with_world w
         (with_event (Exists (joinPath "/cache" (cacheName (Mem.ext "a.a" "1.0.0"))))
                     (Mem.ready (Mem.disk [] []))))) /\
  (List.length
     (fetches (log (snd (downloadExtension (Mem.cached 20) (Mem.ext "a.a" "1.0.0") Mem.update
                           (snd (downloadExtension (Mem.cached 20) (Mem.ext "a.a" "1.0.0")
                                   Mem.install (Mem.ready (Mem.disk [] []))))))))
   <= List.length (@fetches Mem.Err []) + 1)%nat.
Proof.
  apply (fetch_only_when_absent (Mem.cached 20) (Mem.ext "a.a" "1.0.0") Mem.install Mem.update
           (Mem.ready (Mem.disk [] []))).
  - simpl. lia.
  - reflexivity.
  - exact Mem_fetch_makes_exist.
Defined.

Example two_downloads_one_fetch :
  log (snd (downloadExtension (Mem.cached 20) (Mem.ext "A.a" "1.0.0") Mem.update
              (snd (downloadExtension (Mem.cached 20) (Mem.ext "A.a" "1.0.0") Mem.install
                      (Mem.ready (Mem.disk [] [])))))) =
  [Exists "/cache/a.a-1.0.0";
   Download (Mem.ext "A.a" "1.0.0") "/cache/a.a-1.0.0" Mem.install;
   Exists "/cache/a.a-1.0.0"].
Proof. reflexivity. Qed.

(** C6.  [delete] with the cache off deletes the location at once, and
    its outcome is that of the deletion: a rejection is thrown to the
    caller; with the cache on it does nothing at all, so the store is
    after the call what it was before. *)
Theorem delete_only_without_cache {World Err} (this : ExtensionsDownloader World Err)
        (location : URI) (st : state World Err) :
  (cache this = 0%Z ->
   forall r w,
     fs_del (fileService this) location (world st) = (r, w) ->
     delete this location st =
     (match r with inl e => Threw (Rejected e) | inr _ => Returned tt end,
      with_event (Settled location (match r with inl _ => false | inr _ => true end))
                 (with_world w (with_event (Del location) st)))) /\
  (cache this <> 0%Z -> delete this location st = (Returned tt, st)).
Proof.
  split.
  - intros Hc r w Hdel. unfold delete. rewrite Hc. simpl.
    unfold bind, del_start, bind, emit, ret, del_finish. simpl.
    rewrite Hdel. destruct r; reflexivity.
  - intros Hc. unfold delete. apply Z.eqb_neq in Hc. now rewrite Hc.
Qed.

Lemma delete_only_without_cache_witness :
  (delete Mem.uncached "/tmp/t" (Mem.ready (Mem.disk [] [])) =
   (Threw (Rejected "ENOENT"),
    with_event (Settled "/tmp/t" false)
               (with_world (Mem.disk [] [])
                           (with_event (Del "/tmp/t") (Mem.ready (Mem.disk [] [])))))) /\
  (delete (Mem.cached 20) "/cache/junk" (Mem.ready Mem.staleDisk) =
   (Returned tt, Mem.ready Mem.staleDisk)).
Proof.
  split.
  - apply (proj1 (delete_only_without_cache Mem.uncached "/tmp/t"
                    (Mem.ready (Mem.disk [] [])))
                 eq_refl (inl "ENOENT") (Mem.disk [] []) eq_refl).
  - apply (proj2 (delete_only_without_cache (Mem.cached 20) "/cache/junk"
                    (Mem.ready Mem.staleDisk))).
    simpl. lia.
Defined.




(** A download called before the pass returns waits; called again after
    it, it is served. *)
Example download_before_and_after_cleanUp :
  log (steps (fst (Mem.configured Mem.staleDisk))
             [CallDownload (Mem.ext "a.a" "1.2.0") Mem.install;
              CleanUpDone;
              CallDownload (Mem.ext "a.a" "1.2.0") Mem.install]
             (snd (Mem.configured Mem.staleDisk))) =
  [Exists "/cache"; Resolve "/cache";
   Trace "Deleting vsix from cache" (Some "/cache/junk"); Del "/cache/junk";
   Trace "Deleting vsix from cache" (Some "/cache/a.a-1.0.0"); Del "/cache/a.a-1.0.0";
   Settled "/cache/junk" true; Settled "/cache/a.a-1.0.0" true;
   Exists "/cache/a.a-1.2.0"].
Proof. reflexivity. Qed.

(* ================================================================== *)
(** * Further properties of the reconciliation pass *)
(* ================================================================== *)

Module PruneFacts.

Lemma firstn_sub {A} (l : list A) : forall n x, In x (firstn n l) -> In x l.
Proof.
  induction l as [|a l IH]; intros [|n] x H; simpl in *; try contradiction.
  destruct H as [->|H]; [now left|right; now apply IH with n].
Qed.

Lemma firstn_NoDup {A} (l : list A) : forall n, NoDup l -> NoDup (firstn n l).
Proof.
  induction l as [|a l IH]; intros [|n] H; simpl; try constructor.
  - inversion H; subst. intros Hin. apply firstn_sub in Hin. contradiction.
  - inversion H; subst. now apply IH.
Qed.

Lemma skipn_after_firstn {A} (l : list A) n x :
  In x l -> ~ In x (firstn n l) -> In x (skipn n l).
Proof.
  intros H Hn. rewrite <- (firstn_skipn n l) in H.
  apply in_app_iff in H as [H|H]; [contradiction|assumption].
Qed.

Lemma NoDup_map_on {A B} (f : A -> B) (l : list A) :
  NoDup l -> (forall x y, In x l -> In y l -> f x = f y -> x = y) ->
  NoDup (List.map f l).
Proof.
  induction 1 as [|a l Ha Hl IH]; intros Hinj; simpl; constructor.
  - intros Hin. apply in_map_iff in Hin as (y & E & Hy).
    assert (y = a) by (apply Hinj; simpl; auto). subst y. contradiction.
  - apply IH. intros x y Hx Hy. apply Hinj; now right.
Qed.

Lemma NoDup_map_filter {A B} (f : A -> B) (p : A -> bool) (l : list A) :
  NoDup (List.map f l) -> NoDup (List.map f (filter p l)).
Proof.
  induction l as [|a l IH]; simpl; intros H; [constructor|].
  inversion H as [|? ? Ha Hl]; subst.
  destruct (p a); simpl; [|now apply IH].
  constructor; [|now apply IH].
  intros Hin. apply Ha. apply in_map_iff in Hin as (y & E & Hy).
  apply filter_In in Hy as [Hy _]. rewrite <- E. now apply in_map.
Qed.

Lemma skipn_1_NoDup {A} (l : list A) : NoDup l -> NoDup (skipn 1 l).
Proof. intros H. destruct l; simpl; [constructor|now inversion H]. Qed.

Lemma skipn_1_sub {A} (l : list A) x : In x (skipn 1 l) -> In x l.
Proof. destruct l; simpl; auto. Qed.

Lemma existsb_eqb_mem r l : existsb (String.eqb r) l = true <-> In r l.
Proof. apply existsb_eqb. Qed.

Lemma survivors_In toDelete children stat :
  In stat (survivors toDelete children) <->
  In stat children /\ ~ In (resource stat) toDelete.
Proof.
  unfold survivors. rewrite filter_In, negb_true_iff, existsb_eqb_false. tauto.
Qed.

Local Abbreviation gid := (fun e : entry => identifier (fst e)).

Lemma unrecognized_sub children r :
  In r (unrecognized children) -> In r (List.map resource children).
Proof.
  intros H. apply unrecognized_In in H as (stat & Hs & _ & <-). now apply in_map.
Qed.

Lemma recognized_sub children e :
  In e (recognized children) -> In (location e) (List.map resource children).
Proof.
  intros H. apply recognized_In in H as [H _]. unfold location. now apply in_map.
Qed.

Section Listing.
Variable children : list IFileStat.

Local Abbreviation all := (recognized children).
Local Abbreviation ids := (firstSeen (List.map (idOf gid) (recognized children))).
Local Abbreviation sortedOf k :=
  (Arr.sort byVersionDesc (versionsOf gid k (recognized children))).

Lemma kept_recognized r :
  In r (kept children) -> exists e, In e all /\ location e = r.
Proof.
  intros H. apply kept_In in H as (k & h & t & _ & E & ->).
  exists h. split; [|reflexivity].
  assert (Hh : In h (sortedOf k)) by (rewrite E; now left).
  now apply sortedOf_In in Hh.
Qed.

Lemma outdated_recognized r :
  In r (outdated children) -> exists e, In e all /\ location e = r.
Proof.
  intros H. apply outdated_In in H as (k & h & t & e & _ & E & He & ->).
  exists e. split; [|reflexivity].
  assert (Hh : In e (sortedOf k)) by (rewrite E; now right).
  now apply sortedOf_In in Hh.
Qed.

(** What the pass deletes and what it keeps are children of the root. *)
Lemma marked_sub cache r :
  In r (marked cache children) -> In r (List.map resource children).
Proof.
  unfold marked. rewrite !in_app_iff. intros [H|[H|H]].
  - now apply unrecognized_sub.
  - apply outdated_recognized in H as (e & He & <-). now apply recognized_sub.
  - apply firstn_sub, kept_recognized in H as (e & He & <-). now apply recognized_sub.
Qed.

Hypothesis distinct_locations : NoDup (List.map resource children).

Lemma unrecognized_NoDup : NoDup (unrecognized children).
Proof.
  clear -distinct_locations. induction children as [|stat l IH]; simpl; [constructor|].
  inversion distinct_locations as [|? ? Hs Hl]; subst.
  destruct (parse (name stat)); simpl; [now apply IH|].
  constructor; [|now apply IH].
  intros H. apply Hs. now apply unrecognized_sub.
Qed.

Lemma outdated_NoDup : NoDup (outdated children).
Proof.
  rewrite outdated_classes. apply NoDup_flat_map.
  - apply firstSeen_NoDup.
  - intros k _. apply NoDup_map_on.
    + apply skipn_1_NoDup. now apply sortedOf_NoDup.
    + intros x y Hx Hy E. apply skipn_1_sub, sortedOf_In in Hx as [Hx _].
      apply skipn_1_sub, sortedOf_In in Hy as [Hy _].
      now apply (recognized_inj children distinct_locations).
  - intros k k' r _ _ Hr Hr'.
    apply in_map_iff in Hr as (e & <- & He), Hr' as (e' & E & He').
    apply skipn_1_sub, sortedOf_In in He as [He Ke].
    apply skipn_1_sub, sortedOf_In in He' as [He' Ke'].
    assert (e' = e) by now apply (recognized_inj children distinct_locations).
    congruence.
Qed.

(** No location is marked twice. *)
Lemma marked_NoDup cache : NoDup (marked cache children).
Proof.
  unfold marked. apply NoDup_app; [apply unrecognized_NoDup| |].
  - apply NoDup_app; [apply outdated_NoDup| |].
    + apply firstn_NoDup. now apply kept_NoDup.
    + intros r Ho Hk. apply firstn_sub in Hk.
      now apply (kept_not_outdated children distinct_locations r).
  - intros r Hu H. apply in_app_iff in H as [H|H].
    + apply outdated_recognized in H as (e & He & E).
      now apply (unrecognized_not_recognized children distinct_locations r e).
    + apply firstn_sub in H.
      now apply (kept_not_unrecognized children distinct_locations r).
Qed.

(** A child is marked as unrecognized or outdated, or it is a kept
    representative. *)
Lemma child_marked_or_kept stat :
  In stat children ->
  In (resource stat) (unrecognized children ++ outdated children) \/
  (parse (name stat) <> None /\ In (resource stat) (kept children)).
Proof.
  intros Hs. destruct (parse (name stat)) as [x|] eqn:Hp.
  - assert (He : In (x, stat) all) by (apply recognized_In; auto).
    destruct (representative children (x, stat) He) as (rep & t & Hk & Es & _ & _).
    assert (Hin : In (x, stat) (sortedOf (entryId (x, stat))))
      by (apply sortedOf_In; auto).
    rewrite Es in Hin. destruct Hin as [->|Hin].
    + right. split; [discriminate|]. apply kept_In.
      exists (entryId (x, stat)), (x, stat), t. auto.
    + left. rewrite in_app_iff. right. apply outdated_In.
      exists (entryId (x, stat)), rep, t, (x, stat). auto.
  - left. rewrite in_app_iff. left. apply unrecognized_In. eauto.
Qed.

(** What survives a pass: children that parse, each the representative
    of its package, one of the last [cache] of them. *)
Lemma survivor_kept cache stat :
  In stat (survivors (marked cache children) children) ->
  parse (name stat) <> None /\
  In (resource stat)
     (skipn (Z.to_nat (Z.max 0 (Z.of_nat (List.length (kept children)) - cache)))
            (kept children)).
Proof.
  intros H. apply survivors_In in H as [Hs Hn]. unfold marked in Hn.
  destruct (child_marked_or_kept stat Hs) as [H|[Hp Hk]].
  - exfalso. apply Hn. rewrite app_assoc, in_app_iff. now left.
  - split; [exact Hp|]. apply skipn_after_firstn; [exact Hk|].
    intros Hf. apply Hn. rewrite !in_app_iff. auto.
Qed.

(** At most [cache] children survive a pass. *)
Lemma survivors_bound cache :
  (0 <= cache)%Z ->
  (Z.of_nat (List.length (survivors (marked cache children) children)) <= cache)%Z.
Proof.
  intros Hc.
  set (n := Z.to_nat (Z.max 0 (Z.of_nat (List.length (kept children)) - cache))).
  assert (Hincl : incl (List.map resource (survivors (marked cache children) children))
                       (skipn n (kept children))).
  { intros r Hr. apply in_map_iff in Hr as (stat & <- & Hs).
    now apply survivor_kept in Hs as [_ Hs]. }
  assert (Hnd : NoDup (List.map resource (survivors (marked cache children) children)))
    by (unfold survivors; now apply NoDup_map_filter).
  pose proof (NoDup_incl_length Hnd Hincl) as Hlen.
  rewrite length_map, length_skipn in Hlen. subst n. lia.
Qed.

End Listing.

Lemma skipn_sub {A} (l : list A) : forall n x, In x (skipn n l) -> In x l.
Proof.
  induction l as [|a l IH]; intros [|n] x H; simpl in *; auto.
  right. now apply IH with n.
Qed.

Lemma firstSeen_of_NoDup ks : NoDup ks -> firstSeen ks = ks.
Proof.
  induction ks as [|k ks IH] using rev_ind; intros H; [reflexivity|].
  rewrite firstSeen_snoc. apply NoDup_remove in H as [H Hk].
  rewrite app_nil_r in H, Hk. rewrite (IH H).
  apply existsb_eqb_false in Hk. now rewrite Hk.
Qed.

Lemma filter_none {A} (p : A -> bool) (l : list A) :
  (forall y, In y l -> p y = false) -> filter p l = [].
Proof.
  induction l as [|a l IH]; intros H; simpl; [reflexivity|].
  rewrite (H a) by now left. apply IH. intros y Hy. apply H. now right.
Qed.

(** With one entry per package, the entries of the package of [x] are
    [x] alone. *)
Lemma versionsOf_single {T} (g : T -> IExtensionIdentifier) (l : list T) x :
  NoDup (List.map (idOf g) l) -> In x l -> versionsOf g (idOf g x) l = [x].
Proof.
  induction l as [|a l IH]; simpl; intros Hnd Hx; [contradiction|].
  inversion Hnd as [|? ? Ha Hl]; subst. unfold versionsOf in *. simpl.
  destruct Hx as [->|Hx].
  - rewrite String.eqb_refl. f_equal. apply filter_none.
    intros y Hy. apply String.eqb_neq. intros E. apply Ha.
    rewrite <- E. now apply in_map.
  - destruct (String.eqb_spec (idOf g a) (idOf g x)) as [E|_]; [|now apply IH].
    exfalso. apply Ha. rewrite E. now apply in_map.
Qed.

Lemma flat_map_singletons {A B C} (kf : A -> C) (F : C -> list B) (g : A -> B) :
  forall l, (forall x, In x l -> F (kf x) = [g x]) ->
            flat_map F (List.map kf l) = List.map g l.
Proof.
  induction l as [|a l IH]; intros H; simpl; [reflexivity|].
  rewrite (H a) by now left. simpl. f_equal. apply IH.
  intros x Hx. apply H. now right.
Qed.

Lemma flat_map_nils {A B C} (kf : A -> C) (F : C -> list B) :
  forall l, (forall x, In x l -> F (kf x) = []) -> flat_map F (List.map kf l) = [].
Proof.
  induction l as [|a l IH]; intros H; simpl; [reflexivity|].
  rewrite (H a) by now left. simpl. apply IH. intros x Hx. apply H. now right.
Qed.

Lemma all_recognized children :
  (forall stat, In stat children -> parse (name stat) <> None) ->
  unrecognized children = [] /\
  List.map location (recognized children) = List.map resource children.
Proof.
  induction children as [|stat l IH]; intros H; simpl; [now split|].
  destruct (IH (fun s Hs => H s (or_intror Hs))) as [IH1 IH2].
  destruct (parse (name stat)) as [x|] eqn:E.
  - simpl. split; [assumption|]. unfold location at 1. simpl. now f_equal.
  - exfalso. apply (H stat); [now left|assumption].
Qed.

(** A listing in which every name parses, no package has two entries,
    and the entries do not outnumber the limit, is left as it is. *)
Lemma clean_listing cache children :
  (forall stat, In stat children -> parse (name stat) <> None) ->
  NoDup (List.map entryId (recognized children)) ->
  (Z.of_nat (List.length children) <= cache)%Z ->
  reconcile cache children = Some (List.map resource children, []).
Proof.
  intros Hp Hnd Hlen. rewrite reconcile_spec.
  change (NoDup (List.map (idOf gid) (recognized children))) in Hnd.
  destruct (all_recognized children Hp) as [Hu Hl].
  assert (Hsort : forall x, In x (recognized children) ->
            Arr.sort byVersionDesc (versionsOf gid (idOf gid x) (recognized children)) = [x]).
  { intros x Hx. now rewrite (versionsOf_single gid (recognized children) x Hnd Hx). }
  assert (Hk : kept children = List.map resource children).
  { rewrite kept_classes, (firstSeen_of_NoDup _ Hnd), <- Hl.
    apply (flat_map_singletons (idOf gid)). intros x Hx. now rewrite (Hsort x Hx). }
  assert (Ho : outdated children = []).
  { rewrite outdated_classes, (firstSeen_of_NoDup _ Hnd).
    apply (flat_map_nils (idOf gid)). intros x Hx. now rewrite (Hsort x Hx). }
  rewrite Hu, Ho, Hk, length_map. simpl.
  replace (Z.to_nat (Z.max 0 (Z.of_nat (List.length children) - cache))) with O by lia.
  reflexivity.
Qed.

(** A second pass over what the first has left deletes nothing. *)
Lemma second_pass cache children :
  NoDup (List.map resource children) -> (0 <= cache)%Z ->
  reconcile cache (survivors (marked cache children) children) =
  Some (List.map resource (survivors (marked cache children) children), []).
Proof.
  intros Hnd Hc. set (S := survivors (marked cache children) children).
  assert (HndS : NoDup (List.map resource S))
    by (unfold S, survivors; now apply NoDup_map_filter).
  apply clean_listing.
  - intros stat Hs. now apply (survivor_kept children cache stat) in Hs as [Hs _].
  - apply NoDup_map_on; [now apply recognized_NoDup|].
    assert (Hhead : forall e, In e (recognized S) ->
              In e (recognized children) /\
              exists t, Arr.sort byVersionDesc
                          (versionsOf gid (entryId e) (recognized children)) = e :: t).
    { intros e He. apply recognized_In in He as [Hs Hpe].
      pose proof Hs as Hs'. apply survivors_In in Hs' as [Hch _].
      assert (Hall : In e (recognized children)) by (apply recognized_In; auto).
      split; [exact Hall|].
      apply (survivor_kept children cache) in Hs as [_ Hk].
      apply skipn_sub, kept_In in Hk as (k & h & t & _ & E & El).
      assert (Hh : In h (Arr.sort byVersionDesc (versionsOf gid k (recognized children))))
        by (rewrite E; now left).
      apply sortedOf_In in Hh as [Hh Kh].
      assert (e = h) by now apply (recognized_inj children Hnd).
      subst h. exists t. now rewrite Kh. }
    intros e1 e2 H1 H2 E.
    destruct (Hhead e1 H1) as [_ [t1 E1]], (Hhead e2 H2) as [_ [t2 E2]].
    rewrite E in E1. rewrite E1 in E2. now injection E2.
  - now apply survivors_bound.
Qed.

End PruneFacts.

Import PruneFacts.

Lemma prunedListing_NoDup : NoDup (List.map resource prunedListing).
Proof. repeat constructor; simpl; intuition discriminate. Qed.

(** X1.  Whatever the listing and the limit, the pass computes its two
    lists (it never reads the head of an empty group); every location it
    deletes is the location of a child of the root, and every kept
    representative is the location of a child whose name parses. *)
Theorem pass_deletes_only_children (cache : Z) (children : list IFileStat) :
  exists distinct toDelete,
    reconcile cache children = Some (distinct, toDelete) /\
    (forall r, In r toDelete -> exists stat, In stat children /\ resource stat = r) /\
    (forall r, In r distinct ->
               exists stat, In stat children /\ resource stat = r /\
                            parse (name stat) <> None).
Proof.
  rewrite reconcile_spec. do 2 eexists. split; [reflexivity|]. split.
  - intros r Hr. fold (marked cache children) in Hr.
    apply marked_sub, in_map_iff in Hr as (stat & E & Hs). eauto.
  - intros r Hr. apply kept_recognized in Hr as (e & He & <-).
    apply recognized_In in He as [Hs Hp]. exists (snd e).
    split; [assumption|]. split; [reflexivity|]. rewrite Hp. discriminate.
Qed.

(** X2.  In a listing with pairwise distinct locations the pass marks no
    location twice, and no location is the representative of two
    packages. *)
Theorem pass_deletes_once (cache : Z) (children : list IFileStat) :
  NoDup (List.map resource children) ->
  exists distinct toDelete,
    reconcile cache children = Some (distinct, toDelete) /\
    NoDup toDelete /\ NoDup distinct.
Proof.
  intros Hnd. rewrite reconcile_spec. do 2 eexists. split; [reflexivity|].
  split; [now apply (marked_NoDup children Hnd cache)|now apply kept_NoDup].
Qed.

Lemma pass_deletes_once_witness :
  exists distinct toDelete,
    reconcile 1 retentionListing = Some (distinct, toDelete) /\
    NoDup toDelete /\ NoDup distinct.
Proof.
  apply (pass_deletes_once 1 retentionListing). exact retentionListing_NoDup.
Defined.

(** X3.  Every child of the root is deleted or is a kept representative;
    the children that the pass does not delete all have a name that
    parses and are representatives of their package, and with a limit
    that is not negative there are at most [limit] of them. *)
Theorem pass_leaves_at_most_limit (cache : Z) (children : list IFileStat) :
  NoDup (List.map resource children) ->
  (0 <= cache)%Z ->
  exists distinct toDelete,
    reconcile cache children = Some (distinct, toDelete) /\
    (forall stat, In stat children ->
                  In (resource stat) toDelete \/ In (resource stat) distinct) /\
    (forall stat, In stat (survivors toDelete children) ->
                  parse (name stat) <> None /\ In (resource stat) distinct) /\
    (Z.of_nat (List.length (survivors toDelete children)) <= cache)%Z.
Proof.
  intros Hnd Hc. rewrite reconcile_spec. do 2 eexists. split; [reflexivity|].
  fold (marked cache children). split; [|split].
  - intros stat Hs. destruct (child_marked_or_kept children stat Hs) as [H|[_ H]].
    + left. unfold marked. rewrite app_assoc, in_app_iff. now left.
    + now right.
  - intros stat Hs. apply (survivor_kept children cache) in Hs as [Hp Hk].
    split; [exact Hp|]. now apply skipn_sub in Hk.
  - now apply survivors_bound.
Qed.

Lemma pass_leaves_at_most_limit_witness :
  exists distinct toDelete,
    reconcile 1 retentionListing = Some (distinct, toDelete) /\
    (forall stat, In stat retentionListing ->
                  In (resource stat) toDelete \/ In (resource stat) distinct) /\
    (forall stat, In stat (survivors toDelete retentionListing) ->
                  parse (name stat) <> None /\ In (resource stat) distinct) /\
    (Z.of_nat (List.length (survivors toDelete retentionListing)) <= 1)%Z.
Proof.
  apply (pass_leaves_at_most_limit 1 retentionListing).
  - exact retentionListing_NoDup.
  - lia.
Defined.

(** X4.  A listing in which every name parses, no package has two
    entries and the entries do not outnumber the limit is left as it is:
    nothing is deleted and every child is kept, in the order of the
    listing. *)
Theorem pruned_listing_is_left_alone (cache : Z) (children : list IFileStat) :
  (forall stat, In stat children -> parse (name stat) <> None) ->
  NoDup (List.map entryId (recognized children)) ->
  (Z.of_nat (List.length children) <= cache)%Z ->
  reconcile cache children = Some (List.map resource children, []).
Proof. apply clean_listing. Qed.

Lemma pruned_listing_is_left_alone_witness :
  reconcile 20 prunedListing = Some (List.map resource prunedListing, []).
Proof.
  apply (pruned_listing_is_left_alone 20 prunedListing).
  - intros stat [<-|[<-|[]]]; vm_compute; discriminate.
  - vm_compute. repeat constructor; simpl; intuition discriminate.
  - simpl. lia.
Defined.

(** X5.  Pruning is idempotent: when the deletions of a pass have all
    succeeded, a second pass with the same limit over what is left
    deletes nothing and keeps every child that is left. *)
Theorem second_pass_deletes_nothing (cache : Z) (children : list IFileStat) :
  NoDup (List.map resource children) ->
  (0 <= cache)%Z ->
  exists distinct toDelete,
    reconcile cache children = Some (distinct, toDelete) /\
    reconcile cache (survivors toDelete children) =
    Some (List.map resource (survivors toDelete children), []).
Proof.
  intros Hnd Hc. rewrite (reconcile_spec cache children). do 2 eexists.
  split; [reflexivity|]. now apply second_pass.
Qed.

Lemma second_pass_deletes_nothing_witness :
  exists distinct toDelete,
    reconcile 1 retentionListing = Some (distinct, toDelete) /\
    reconcile 1 (survivors toDelete retentionListing) =
    Some (List.map resource (survivors toDelete retentionListing), []).
Proof.
  apply (second_pass_deletes_nothing 1 retentionListing).
  - exact retentionListing_NoDup.
  - lia.
Defined.

(* ================================================================== *)
(** * Further properties of the calls *)
(* ================================================================== *)

Module CallFacts.

Lemma issued_quiet {Err} (toDelete : list URI) :
  errorsLogged (@issued Err toDelete) = [] /\
  forall e, In e (@issued Err toDelete) -> ofFetching e = false.
Proof.
  induction toDelete as [|r l [IH1 IH2]]; simpl; [split; [reflexivity|intros e []]|].
  split; [exact IH1|]. intros e [<-|[<-|H]]; auto.
Qed.

Lemma settledOk_quiet {Err} (done : list URI) :
  errorsLogged (@settledOk Err done) = [] /\
  forall e, In e (@settledOk Err done) -> ofFetching e = false.
Proof.
  induction done as [|r l [IH1 IH2]]; simpl; [split; [reflexivity|intros e []]|].
  split; [exact IH1|]. intros e [<-|H]; auto.
Qed.

Lemma errorsLogged_app {Err} (l1 l2 : list (event Err)) :
  errorsLogged (l1 ++ l2) = errorsLogged l1 ++ errorsLogged l2.
Proof. apply filter_app. Qed.

Lemma ofDownload_not_pass {Err} (e : event Err) :
  ofDownload e = true -> ofPassOnly e = false.
Proof. destruct e; simpl; congruence. Qed.

Section OneDownloader.
Context {World Err : Type}.
Variable this : ExtensionsDownloader World Err.

Local Abbreviation state := (state World Err).
Local Abbreviation dir := (extensionsDownloadDir this).

(** What a download adds to the log: a token with the cache off, then
    one check, then at most one fetch; it starts no deletion. *)
Lemma download_events extension operation (st : state) :
  exists es,
    log (snd (downloadExtension this extension operation st)) = log st ++ es /\
    (forall e, In e es -> ofDownload e = true) /\
    (List.length (fetches es) <= 1)%nat /\
    inflight (snd (downloadExtension this extension operation st)) = inflight st /\
    (List.length (tokens es) <= 1)%nat /\
    (List.length (checks es) <= 1)%nat.
Proof.
  enough (H : forall R, R = downloadExtension this extension operation st ->
            exists es, log (snd R) = log st ++ es /\
                       (forall e, In e es -> ofDownload e = true) /\
                       (List.length (fetches es) <= 1)%nat /\
                       inflight (snd R) = inflight st /\
                       (List.length (tokens es) <= 1)%nat /\
                       (List.length (checks es) <= 1)%nat)
    by (apply (H _ eq_refl)).
  intros R HR. unfold downloadExtension, bind at 1, awaitCleanUp in HR.
  destruct (cleanUpPromise st) eqn:Hp;
    try (subst R; exists []; simpl; rewrite app_nil_r; repeat split; auto; intros e []).
  unfold bind at 1, getName in HR.
  destruct (cache this =? 0)%Z.
  - destruct (generateUuid (host this) (world st)) as [token w].
    unfold bind at 1, download, bind at 1, await at 1 in HR. simpl in HR.
    destruct (fs_exists (fileService this) (joinPath dir token) w) as [[e|[|]] w'];
      simpl in HR.
    + subst R. exists [Uuid; Exists (joinPath dir token)]. simpl. rewrite <- app_assoc.
      repeat split; auto. intros x [<-|[<-|[]]]; reflexivity.
    + subst R. exists [Uuid; Exists (joinPath dir token)]. simpl. rewrite <- app_assoc.
      repeat split; auto. intros x [<-|[<-|[]]]; reflexivity.
    + unfold await in HR. simpl in HR.
      destruct (gallery_download (extensionGalleryService this) extension
                  (joinPath dir token) operation w') as [[e|u] w'']; simpl in HR;
        subst R;
        exists [Uuid; Exists (joinPath dir token);
                Download extension (joinPath dir token) operation];
        simpl; rewrite <- !app_assoc; repeat split; auto;
        intros x [<-|[<-|[<-|[]]]]; reflexivity.
  - unfold ret at 1 in HR. unfold bind at 1, download, bind at 1, await at 1 in HR.
    simpl in HR.
    destruct (fs_exists (fileService this) (joinPath dir (cacheName extension)) (world st))
      as [[e|[|]] w']; simpl in HR.
    + subst R. exists [Exists (joinPath dir (cacheName extension))]. simpl.
      repeat split; auto. intros x [<-|[]]; reflexivity.
    + subst R. exists [Exists (joinPath dir (cacheName extension))]. simpl.
      repeat split; auto. intros x [<-|[]]; reflexivity.
    + unfold await in HR. simpl in HR.
      destruct (gallery_download (extensionGalleryService this) extension
                  (joinPath dir (cacheName extension)) operation w') as [[e|u] w''];
        simpl in HR; subst R;
        exists [Exists (joinPath dir (cacheName extension));
                Download extension (joinPath dir (cacheName extension)) operation];
        simpl; rewrite <- !app_assoc; repeat split; auto;
        intros x [<-|[<-|[]]]; reflexivity.
Qed.

(** With the cache on a download generates no token. *)
Lemma download_tokens extension operation (st : state) es :
  cache this <> 0%Z ->
  log (snd (downloadExtension this extension operation st)) = log st ++ es ->
  tokens es = [].
Proof.
  intros Hon.
  enough (H : forall R, R = downloadExtension this extension operation st ->
            exists es', log (snd R) = log st ++ es' /\ tokens es' = []).
  { intros Hl. destruct (H _ eq_refl) as (es' & Hl' & Ht).
    rewrite Hl in Hl'. apply app_inv_head in Hl'. now subst es'. }
  intros R HR. unfold downloadExtension, bind at 1, awaitCleanUp in HR.
  destruct (cleanUpPromise st) eqn:Hp;
    try (subst R; exists []; simpl; rewrite app_nil_r; now split).
  unfold bind at 1, getName in HR.
  destruct (Z.eqb_spec (cache this) 0) as [E|_]; [contradiction|].
  unfold ret at 1 in HR. unfold bind at 1, download, bind at 1, await at 1 in HR.
  simpl in HR.
  destruct (fs_exists (fileService this) (joinPath dir (cacheName extension)) (world st))
    as [[e|[|]] w']; simpl in HR.
  - subst R. exists [Exists (joinPath dir (cacheName extension))]. now split.
  - subst R. exists [Exists (joinPath dir (cacheName extension))]. now split.
  - unfold await in HR. simpl in HR.
    destruct (gallery_download (extensionGalleryService this) extension
                (joinPath dir (cacheName extension)) operation w') as [[e|u] w''];
      simpl in HR; subst R;
      exists [Exists (joinPath dir (cacheName extension));
              Download extension (joinPath dir (cacheName extension)) operation];
      simpl; rewrite <- !app_assoc; now split.
Qed.

Lemma delete_events location (st : state) :
  exists es,
    log (snd (delete this location st)) = log st ++ es /\
    forall e, In e es -> ofPassOnly e = false.
Proof.
  unfold delete. destruct (cache this =? 0)%Z.
  - unfold bind, del_start, bind, emit, ret. simpl.
    destruct (del_finish_cases this location (with_event (Del location) st))
      as [[w ->]|(e & w & ->)]; simpl.
    + exists [Del location; Settled location true]. rewrite <- app_assoc.
      split; [reflexivity|]. intros x [<-|[<-|[]]]; reflexivity.
    + exists [Del location; Settled location false]. rewrite <- app_assoc.
      split; [reflexivity|]. intros x [<-|[<-|[]]]; reflexivity.
  - exists []. simpl. rewrite app_nil_r. split; [reflexivity|intros e []].
Qed.

Lemma drain_0 (st : state) : drain this 0 st = st.
Proof. simpl. now destruct (inflight st). Qed.

Lemma finish_events (st : state) :
  exists es,
    log (drain this 1 st) = log st ++ es /\
    forall e, In e es -> ofPassOnly e = false.
Proof.
  change (drain this 1 st)
    with (match inflight st with
          | [] => st
          | first :: _ =>
              drain this 0
                (with_inflight
                   (remove_nth (finishes_next (host this) (world st)
                                mod List.length (inflight st)) (inflight st))
                   (snd (del_finish this
                           (nth (finishes_next (host this) (world st)
                                 mod List.length (inflight st)) (inflight st) first)
                           st)))
          end).
  destruct (inflight st) as [|first l].
  - exists []. rewrite app_nil_r. split; [reflexivity|intros e []].
  - rewrite drain_0.
    match goal with
    | |- context [del_finish this ?r st] =>
        destruct (del_finish_cases this r st) as [[w Hd]|(e & w & Hd)]; rewrite Hd;
          [exists [Settled r true]|exists [Settled r false]]
    end;
      (split; [reflexivity|intros x [<-|[]]; reflexivity]).
Qed.

(** Once the promise of the pass is fulfilled, nothing that happens logs
    a listing, a trace or an error. *)
Lemma step_events a (st : state) :
  cleanUpPromise st = Fulfilled ->
  exists es,
    log (step this a st) = log st ++ es /\
    forall e, In e es -> ofPassOnly e = false.
Proof.
  intros Hp. destruct a as [extension operation|location| |]; unfold step.
  - destruct (download_events extension operation st) as (es & Hl & He & _).
    exists es. split; [exact Hl|]. intros e H. now apply ofDownload_not_pass, He.
  - apply delete_events.
  - rewrite Hp. exists []. rewrite app_nil_r. split; [reflexivity|intros e []].
  - apply finish_events.
Qed.

Lemma steps_events actions : forall st : state,
  cleanUpPromise st = Fulfilled ->
  exists es,
    log (steps this actions st) = log st ++ es /\
    forall e, In e es -> ofPassOnly e = false.
Proof.
  induction actions as [|a l IH]; intros st Hp.
  - exists []. simpl. rewrite app_nil_r. split; [reflexivity|intros e []].
  - simpl. destruct (step_events a st Hp) as (es1 & H1 & H1').
    destruct (IH (step this a st) (step_fulfilled this a st Hp)) as (es2 & H2 & H2').
    exists (es1 ++ es2). rewrite H2, H1, app_assoc. split; [reflexivity|].
    intros e He. apply in_app_iff in He as [He|He]; auto.
Qed.

Lemma step_settled_or_pending a (st : state) :
  settled_or_pending st -> settled_or_pending (step this a st).
Proof.
  intros [Hp|Hp]; [|right; now apply step_fulfilled].
  unfold settled_or_pending.
  destruct a as [extension operation|location| |]; unfold step.
  - rewrite downloadExtension_promise. auto.
  - rewrite delete_promise. auto.
  - rewrite Hp. right. apply cleanUpSettles_fulfilled.
  - rewrite drain_promise. auto.
Qed.

Lemma steps_settled_or_pending actions : forall st : state,
  settled_or_pending st -> settled_or_pending (steps this actions st).
Proof.
  induction actions as [|a l IH]; intros st H; [exact H|].
  simpl. apply IH. now apply step_settled_or_pending.
Qed.

(** The pass when the check of the root fails. *)
Lemma cleanUp_check_fails (st : state) e w :
  fs_exists (fileService this) dir (world st) = (inl e, w) ->
  cleanUp this st =
  (Returned tt,
   with_event (LogError (Rejected e)) (with_world w (with_event (Exists dir) st))).
Proof.
  intros Hex. unfold cleanUp, try_catch, cleanUpBody, cleanUpAfterCheck, bind at 1, await at 1. simpl.
  now rewrite Hex.
Qed.

(** The pass when the root is missing. *)
Lemma cleanUp_no_root (st : state) w :
  fs_exists (fileService this) dir (world st) = (inr false, w) ->
  cleanUp this st =
  (Returned tt,
   with_event (Trace "Extension VSIX downlads cache dir does not exist" None)
              (with_world w (with_event (Exists dir) st))).
Proof.
  intros Hex. unfold cleanUp, try_catch, cleanUpBody, cleanUpAfterCheck, bind at 1, await at 1. simpl.
  now rewrite Hex.
Qed.

(** The pass when the listing fails. *)
Lemma cleanUp_listing_fails (st : state) w1 e w2 :
  fs_exists (fileService this) dir (world st) = (inr true, w1) ->
  fs_resolve (fileService this) dir w1 = (inl e, w2) ->
  cleanUp this st =
  (Returned tt,
   with_event (LogError (Rejected e))
     (with_world w2 (with_event (Resolve dir) (with_world w1 (with_event (Exists dir) st))))).
Proof.
  intros Hex Hres. unfold cleanUp, try_catch, cleanUpBody, cleanUpAfterCheck, bind at 1, await at 1. simpl.
  rewrite Hex. simpl. unfold bind at 1, await at 1. simpl. now rewrite Hres.
Qed.

(** The pass when the root has no children to list. *)
Lemma cleanUp_no_children (st : state) w1 folderStat w2 :
  fs_exists (fileService this) dir (world st) = (inr true, w1) ->
  fs_resolve (fileService this) dir w1 = (inr folderStat, w2) ->
  children folderStat = None ->
  cleanUp this st =
  (Returned tt,
   with_world w2 (with_event (Resolve dir) (with_world w1 (with_event (Exists dir) st)))).
Proof.
  intros Hex Hres Hch. unfold cleanUp, try_catch, cleanUpBody, cleanUpAfterCheck, bind at 1, await at 1.
  simpl. rewrite Hex. simpl. unfold bind at 1, await at 1. simpl.
  now rewrite Hres, Hch.
Qed.

(** What a pass adds to the log, whatever the store does. *)
Lemma cleanUp_events (st : state) :
  exists es,
    log (snd (cleanUp this st)) = log st ++ Exists dir :: es /\
    (forall e, In e es -> ofFetching e = false) /\
    (List.length (errorsLogged es) <= 1)%nat /\
    cleanUpPromise (snd (cleanUp this st)) = cleanUpPromise st.
Proof.
  destruct (fs_exists (fileService this) dir (world st)) as [[e|found] w1] eqn:Hex.
  - exists [LogError (Rejected e)]. rewrite (cleanUp_check_fails st e w1 Hex). simpl.
    rewrite <- app_assoc. repeat split; auto. intros x [<-|[]]; reflexivity.
  - destruct found.
    + destruct (fs_resolve (fileService this) dir w1) as [[e|folderStat] w2] eqn:Hres.
      * exists [Resolve dir; LogError (Rejected e)].
        rewrite (cleanUp_listing_fails st w1 e w2 Hex Hres). simpl.
        rewrite <- !app_assoc. repeat split; auto.
        intros x [<-|[<-|[]]]; reflexivity.
      * destruct (children folderStat) as [l|] eqn:Hch.
        -- destruct (cleanUp_listing this st w1 w2 folderStat l Hex Hres Hch)
             as (st' & done & rest & Hrun & _ & _ & Hpr & Hlog).
           rewrite Hrun. simpl.
           destruct (@issued_quiet Err (marked (cache this) l)) as [Hi1 Hi2].
           destruct Hlog as [(_ & ->)|(e & ok & r & _ & ->)].
           ++ destruct (@settledOk_quiet Err done) as [Hs1 Hs2].
              exists (Resolve dir :: issued (marked (cache this) l) ++ settledOk done).
              split; [reflexivity|]. split; [|split; [|exact Hpr]].
              ** intros x [<-|Hx]; [reflexivity|].
                 apply in_app_iff in Hx as [Hx|Hx]; auto.
              ** simpl. rewrite errorsLogged_app, Hi1, Hs1. simpl. lia.
           ++ destruct (@settledOk_quiet Err ok) as [Hs1 Hs2].
              exists (Resolve dir :: issued (marked (cache this) l) ++ settledOk ok ++
                      [Settled r false; LogError (Rejected e)]).
              split; [reflexivity|]. split; [|split; [|exact Hpr]].
              ** intros x [<-|Hx]; [reflexivity|].
                 apply in_app_iff in Hx as [Hx|Hx]; auto.
                 apply in_app_iff in Hx as [Hx|[<-|[<-|[]]]]; auto.
              ** simpl. rewrite !errorsLogged_app, Hi1, Hs1. simpl. lia.
        -- exists [Resolve dir].
           rewrite (cleanUp_no_children st w1 folderStat w2 Hex Hres Hch). simpl.
           rewrite <- app_assoc. repeat split; auto. intros x [<-|[]]; reflexivity.
    + exists [Trace "Extension VSIX downlads cache dir does not exist" None].
      rewrite (cleanUp_no_root st w1 Hex). simpl.
      rewrite <- app_assoc. repeat split; auto. intros x [<-|[]]; reflexivity.
Qed.

(** Two downloads in a row under one name fetch at most once, given
    that a fetch makes its target exist. *)
Lemma two_downloads_one_name e1 e2 o1 o2 (st : state) :
  cache this <> 0%Z ->
  cleanUpPromise st = Fulfilled ->
  (forall e location o w r w',
      gallery_download (extensionGalleryService this) e location o w = (r, w') ->
      exists w'', fs_exists (fileService this) location w' = (inr true, w'')) ->
  cacheName e1 = cacheName e2 ->
  (List.length
     (fetches (log (snd (downloadExtension this e2 o2
                           (snd (downloadExtension this e1 o1 st))))))
   <= List.length (fetches (log st)) + 1)%nat.
Proof.
  intros Hc Hp Hfetch Hname.
  set (location := joinPath dir (cacheName e1)).
  pose proof (downloadExtension_promise this e1 o1 st) as Hp1. rewrite Hp in Hp1.
  remember (downloadExtension this e1 o1 st) as R eqn:HR.
  rewrite (downloadExtension_enabled this e1 o1 st Hc Hp) in HR.
  fold location in HR. cbv zeta in HR.
  destruct (download_events e2 o2 (snd R)) as (es & Hl & _ & Hone & _).
  rewrite Hl, fetches_app, length_app.
  destruct (fs_exists (fileService this) location (world st)) as [[e|[|]] w] eqn:Hex.
  - subst R. simpl. rewrite fetches_app. simpl. rewrite app_nil_r. lia.
  - subst R. simpl. rewrite fetches_app. simpl. rewrite app_nil_r. lia.
  - destruct (gallery_download (extensionGalleryService this) e1 location o1 w)
      as [r w'] eqn:Hdl.
    destruct (Hfetch _ _ _ _ _ _ Hdl) as [w'' Hex'].
    assert (E : forall s : state,
               cleanUpPromise s = Fulfilled -> world s = w' ->
               log (snd (downloadExtension this e2 o2 s)) = log s ++ [Exists location]).
    { intros s Hs Hw. rewrite (downloadExtension_enabled this e2 o2 s Hc Hs).
      rewrite <- Hname. fold location. cbv zeta. rewrite Hw, Hex'. reflexivity. }
    assert (Hes : es = [Exists location]).
    { apply (app_inv_head (log (snd R))). rewrite <- Hl. apply E; [exact Hp1|].
      subst R. destruct r; reflexivity. }
    subst es. destruct r as [e|u]; subst R; simpl;
      rewrite !fetches_app, !length_app; simpl; lia.
Qed.

End OneDownloader.
End CallFacts.

Import CallFacts.

(** X6.  A pass that cannot have the listing deletes nothing and still
    returns normally.  When the root is missing it traces that and stops,
    without listing anything and without logging an error; when the check
    of the root or the listing is rejected, that rejection is logged once;
    when the root has no children to list, nothing is logged at all.  In
    each case no deletion is started. *)
Theorem pass_without_listing {World Err} (this : ExtensionsDownloader World Err)
        (st : state World Err) :
  (forall w,
      fs_exists (fileService this) (extensionsDownloadDir this) (world st) = (inr false, w) ->
      cleanUp this st =
      (Returned tt,
       with_event (Trace "Extension VSIX downlads cache dir does not exist" None)
                  (with_world w (with_event (Exists (extensionsDownloadDir this)) st)))) /\
  (forall e w,
      fs_exists (fileService this) (extensionsDownloadDir this) (world st) = (inl e, w) ->
      cleanUp this st =
      (Returned tt,
       with_event (LogError (Rejected e))
                  (with_world w (with_event (Exists (extensionsDownloadDir this)) st)))) /\
  (forall w1 e w2,
      fs_exists (fileService this) (extensionsDownloadDir this) (world st) = (inr true, w1) ->
      fs_resolve (fileService this) (extensionsDownloadDir this) w1 = (inl e, w2) ->
      cleanUp this st =
      (Returned tt,
       with_event (LogError (Rejected e))
         (with_world w2
            (with_event (Resolve (extensionsDownloadDir this))
               (with_world w1 (with_event (Exists (extensionsDownloadDir this)) st)))))) /\
  (forall w1 folderStat w2,
      fs_exists (fileService this) (extensionsDownloadDir this) (world st) = (inr true, w1) ->
      fs_resolve (fileService this) (extensionsDownloadDir this) w1 = (inr folderStat, w2) ->
      children folderStat = None ->
      cleanUp this st =
      (Returned tt,
       with_world w2
         (with_event (Resolve (extensionsDownloadDir this))
            (with_world w1 (with_event (Exists (extensionsDownloadDir this)) st))))).
Proof.
  split; [|split; [|split]].
  - intros w. apply cleanUp_no_root.
  - intros e w. apply cleanUp_check_fails.
  - intros w1 e w2. apply cleanUp_listing_fails.
  - intros w1 folderStat w2. apply cleanUp_no_children.
Qed.

Lemma pass_without_listing_witness :
  log (snd (cleanUp (Stub.cached (inr false) (inl "ENOTDIR") (inr tt)) Stub.started)) =
  [Exists "/cache"; Trace "Extension VSIX downlads cache dir does not exist" None] /\
  log (snd (cleanUp (Stub.cached (inl "EACCES") (inl "ENOTDIR") (inr tt)) Stub.started)) =
  [Exists "/cache"; LogError (Rejected "EACCES")] /\
  log (snd (cleanUp (Stub.cached (inr true) (inl "ENOTDIR") (inr tt)) Stub.started)) =
  [Exists "/cache"; Resolve "/cache"; LogError (Rejected "ENOTDIR")] /\
  log (snd (cleanUp (Stub.cached (inr true) (inr {| children := None |}) (inr tt))
                    Stub.started)) =
  [Exists "/cache"; Resolve "/cache"].
Proof.
  split; [|split; [|split]].
  - rewrite (proj1 (pass_without_listing
                      (Stub.cached (inr false) (inl "ENOTDIR") (inr tt)) Stub.started)
                   tt eq_refl).
    reflexivity.
  - rewrite (proj1 (proj2 (pass_without_listing
                             (Stub.cached (inl "EACCES") (inl "ENOTDIR") (inr tt))
                             Stub.started))
                   "EACCES" tt eq_refl).
    reflexivity.
  - rewrite (proj1 (proj2 (proj2 (pass_without_listing
                                    (Stub.cached (inr true) (inl "ENOTDIR") (inr tt))
                                    Stub.started)))
                   tt "ENOTDIR" tt eq_refl eq_refl).
    reflexivity.
  - rewrite (proj2 (proj2 (proj2 (pass_without_listing
                                    (Stub.cached (inr true) (inr {| children := None |})
                                                 (inr tt))
                                    Stub.started)))
                   tt {| children := None |} tt eq_refl eq_refl eq_refl).
    reflexivity.
Defined.

(** X7.  Whatever the store does, a pass logs the check of the root
    first, never calls the fetcher and never asks for a token, logs at
    most one error, and leaves the promise of the pass as it is. *)
Theorem pass_never_fetches {World Err} (this : ExtensionsDownloader World Err)
        (st : state World Err) :
  exists es,
    log (snd (cleanUp this st)) =
    log st ++ Exists (extensionsDownloadDir this) :: es /\
    (forall e, In e es -> ofFetching e = false) /\
    (List.length (errorsLogged es) <= 1)%nat /\
    cleanUpPromise (snd (cleanUp this st)) = cleanUpPromise st.
Proof. apply cleanUp_events. Qed.

(** X8.  Whatever its mode and the state of the promise, a download adds
    to the log at most a token, one check and one fetch; it lists
    nothing, starts no deletion, and logs neither a trace nor an error. *)
Theorem download_only_checks_and_fetches {World Err}
        (this : ExtensionsDownloader World Err) (extension : IGalleryExtension)
        (operation : InstallOperation) (st : state World Err) :
  exists es,
    log (snd (downloadExtension this extension operation st)) = log st ++ es /\
    (forall e, In e es -> ofDownload e = true) /\
    (List.length (tokens es) <= 1)%nat /\
    (List.length (checks es) <= 1)%nat /\
    (List.length (fetches es) <= 1)%nat /\
    (cache this <> 0%Z -> tokens es = []) /\
    inflight (snd (downloadExtension this extension operation st)) = inflight st.
Proof.
  destruct (download_events this extension operation st)
    as (es & Hl & He & Hf & Hin & Ht & Hc).
  exists es. repeat split; try assumption.
  intros Hon. apply (download_tokens this extension operation st es Hon Hl).
Qed.

(** X9.  From the state the constructor leaves, whatever is called and
    whatever the store does, the promise of the pass is never rejected:
    the [await] at the head of a download never throws; and the promise
    is pending only with the cache on. *)
Theorem promise_is_never_rejected {World Err} (path : option string)
        (store : IFileService World Err) (fetcher : IExtensionGalleryService World Err)
        (platform : Host World) (w : World) (actions : list action) (e : exn Err) :
  cleanUpPromise (steps (fst (construct path store fetcher platform w)) actions
                        (snd (construct path store fetcher platform w))) <> Failed e /\
  fst (awaitCleanUp (steps (fst (construct path store fetcher platform w)) actions
                           (snd (construct path store fetcher platform w)))) <> Threw e /\
  (cleanUpPromise (steps (fst (construct path store fetcher platform w)) actions
                         (snd (construct path store fetcher platform w))) = Pending ->
   cache (fst (construct path store fetcher platform w)) = 20%Z).
Proof.
  set (c := construct path store fetcher platform w).
  assert (H0 : settled_or_pending (snd c)).
  { subst c. unfold construct, settled_or_pending.
    destruct path as [p|]; [destruct (String.eqb p "")|]; simpl; auto. }
  pose proof (steps_settled_or_pending (fst c) actions (snd c) H0) as H.
  split; [|split].
  - destruct H as [H|H]; rewrite H; discriminate.
  - unfold awaitCleanUp. destruct H as [H|H]; rewrite H; discriminate.
  - intros Hp. subst c. unfold construct in *.
    destruct path as [p|]; [destruct (String.eqb p "")|]; simpl in *;
      try reflexivity;
      rewrite steps_fulfilled in Hp by reflexivity; discriminate.
Qed.

(** X10.  Without a configured path, or with an empty one, the cache is
    off and the root is never listed nor pruned: whatever is called, the
    log never holds a listing, a trace or an error. *)
Theorem no_path_no_pass {World Err}
        (store : IFileService World Err) (fetcher : IExtensionGalleryService World Err)
        (platform : Host World) (w : World) (actions : list action) :
  (cache (fst (construct None store fetcher platform w)) = 0%Z /\
   forall e,
     In e (log (steps (fst (construct None store fetcher platform w)) actions
                      (snd (construct None store fetcher platform w)))) ->
     ofPassOnly e = false) /\
  (cache (fst (construct (Some "") store fetcher platform w)) = 0%Z /\
   forall e,
     In e (log (steps (fst (construct (Some "") store fetcher platform w)) actions
                      (snd (construct (Some "") store fetcher platform w)))) ->
     ofPassOnly e = false).
Proof.
  split; (split; [reflexivity|]); intros e He;
    match type of He with
    | In _ (log (steps ?t _ ?s)) =>
        destruct (steps_events t actions s eq_refl) as (es & Hl & Hes)
    end;
    rewrite Hl in He; simpl in He; now apply Hes.
Qed.

(** X11.  With the cache on and the pass over, a download returns the
    location of the name of the identity under the root, on a hit and
    after a fetch that succeeds alike; when the fetch is rejected the
    rejection is thrown to the caller after that one fetch, with no
    second attempt. *)
Theorem download_returns_or_throws {World Err} (this : ExtensionsDownloader World Err)
        (extension : IGalleryExtension) (operation : InstallOperation)
        (st : state World Err) :
  cache this <> 0%Z ->
  cleanUpPromise st = Fulfilled ->
  (forall w,
      fs_exists (fileService this)
                (joinPath (extensionsDownloadDir this) (cacheName extension)) (world st) =
      (inr true, w) ->
      downloadExtension this extension operation st =
      (Returned (joinPath (extensionsDownloadDir this) (cacheName extension)),
       with_world w
         (with_event (Exists (joinPath (extensionsDownloadDir this) (cacheName extension)))
                     st))) /\
  (forall w r w',
      fs_exists (fileService this)
                (joinPath (extensionsDownloadDir this) (cacheName extension)) (world st) =
      (inr false, w) ->
      gallery_download (extensionGalleryService this) extension
                       (joinPath (extensionsDownloadDir this) (cacheName extension))
                       operation w = (r, w') ->
      downloadExtension this extension operation st =
      (match r with
       | inl e => Threw (Rejected e)
       | inr _ => Returned (joinPath (extensionsDownloadDir this) (cacheName extension))
       end,
       with_world w'
         (with_event
            (Download extension
                      (joinPath (extensionsDownloadDir this) (cacheName extension))
                      operation)
            (with_world w
               (with_event
                  (Exists (joinPath (extensionsDownloadDir this) (cacheName extension)))
                  st))))).
Proof.
  intros Hc Hp. split.
  - intros w Hex. rewrite (downloadExtension_enabled this extension operation st Hc Hp).
    cbv zeta. now rewrite Hex.
  - intros w r w' Hex Hdl.
    rewrite (downloadExtension_enabled this extension operation st Hc Hp).
    cbv zeta. rewrite Hex, Hdl. now destruct r.
Qed.

Lemma download_returns_or_throws_witness :
  downloadExtension (Stub.cached (inr true) (inl "ENOTDIR") (inl "EIO"))
                    (Mem.ext "a.a" "1.0.0") Mem.install Stub.ready =
  (Returned "/cache/a.a-1.0.0",
   with_world tt (with_event (Exists "/cache/a.a-1.0.0") Stub.ready)) /\
  downloadExtension (Stub.cached (inr false) (inl "ENOTDIR") (inl "EIO"))
                    (Mem.ext "a.a" "1.0.0") Mem.install Stub.ready =
  (Threw (Rejected "EIO"),
   with_world tt
     (with_event (Download (Mem.ext "a.a" "1.0.0") "/cache/a.a-1.0.0" Mem.install)
        (with_world tt (with_event (Exists "/cache/a.a-1.0.0") Stub.ready)))).
Proof.
  split.
  - apply (proj1 (download_returns_or_throws
                    (Stub.cached (inr true) (inl "ENOTDIR") (inl "EIO"))
                    (Mem.ext "a.a" "1.0.0") Mem.install Stub.ready
                    ltac:(simpl; lia) eq_refl) tt eq_refl).
  - apply (proj2 (download_returns_or_throws
                    (Stub.cached (inr false) (inl "ENOTDIR") (inl "EIO"))
                    (Mem.ext "a.a" "1.0.0") Mem.install Stub.ready
                    ltac:(simpl; lia) eq_refl) tt (inl "EIO") tt eq_refl eq_refl).
Defined.

Lemma lower_char_idem a : Str.lower_char (Str.lower_char a) = Str.lower_char a.
Proof. destruct a as [[] [] [] [] [] [] [] []]; reflexivity. Qed.

Lemma toLowerCase_idem s : Str.toLowerCase (Str.toLowerCase s) = Str.toLowerCase s.
Proof.
  unfold Str.toLowerCase. induction s as [|a s IH]; simpl; [reflexivity|].
  now rewrite lower_char_idem, IH.
Qed.

Lemma cacheName_lower e1 e2 :
  Str.toLowerCase (id (g_identifier e1)) = Str.toLowerCase (id (g_identifier e2)) ->
  g_version e1 = g_version e2 ->
  cacheName e1 = cacheName e2.
Proof.
  intros Hi Hv. unfold cacheName, key, Str.toLowerCase in *. simpl.
  rewrite !map_append, Hi, Hv. reflexivity.
Qed.

(** X12.  With the cache on, a name is in lower case, and two identities
    of one version whose package ids differ only in the case of their
    letters have one name, so they share one cache entry: given that a
    fetch makes its target exist, downloading the one and then the other
    calls the fetcher at most once. *)
Theorem names_ignore_case {World Err} (this : ExtensionsDownloader World Err)
        (e1 e2 : IGalleryExtension) (o1 o2 : InstallOperation) (st : state World Err) :
  cache this <> 0%Z ->
  cleanUpPromise st = Fulfilled ->
  (forall e location o w r w',
      gallery_download (extensionGalleryService this) e location o w = (r, w') ->
      exists w'', fs_exists (fileService this) location w' = (inr true, w'')) ->
  Str.toLowerCase (id (g_identifier e1)) = Str.toLowerCase (id (g_identifier e2)) ->
  g_version e1 = g_version e2 ->
  (exists n, getName this e1 st = (Returned n, st) /\
             getName this e2 st = (Returned n, st) /\
             Str.toLowerCase n = n) /\
  (List.length
     (fetches (log (snd (downloadExtension this e2 o2
                           (snd (downloadExtension this e1 o1 st))))))
   <= List.length (fetches (log st)) + 1)%nat.
Proof.
  intros Hc Hp Hfetch Hi Hv.
  pose proof (cacheName_lower e1 e2 Hi Hv) as Hn. split.
  - exists (cacheName e1). rewrite !getName_enabled by assumption. rewrite Hn.
    split; [reflexivity|]. split; [reflexivity|].
    unfold cacheName. apply toLowerCase_idem.
  - now apply two_downloads_one_name.
Qed.

Lemma names_ignore_case_witness :
  (exists n,
      getName (Mem.cached 20) (Mem.ext "Pub.Name" "1.0.0") (Mem.ready (Mem.disk [] [])) =
      (Returned n, Mem.ready (Mem.disk [] [])) /\
      getName (Mem.cached 20) (Mem.ext "pub.name" "1.0.0") (Mem.ready (Mem.disk [] [])) =
      (Returned n, Mem.ready (Mem.disk [] [])) /\
      Str.toLowerCase n = n) /\
  (List.length
     (fetches (log (snd (downloadExtension (Mem.cached 20) (Mem.ext "pub.name" "1.0.0")
                           Mem.update
                           (snd (downloadExtension (Mem.cached 20)
                                   (Mem.ext "Pub.Name" "1.0.0") Mem.install
                                   (Mem.ready (Mem.disk [] []))))))))
   <= List.length (@fetches Mem.Err []) + 1)%nat.
Proof.
  apply (names_ignore_case (Mem.cached 20) (Mem.ext "Pub.Name" "1.0.0")
           (Mem.ext "pub.name" "1.0.0") Mem.install Mem.update
           (Mem.ready (Mem.disk [] []))).
  - simpl. lia.
  - reflexivity.
  - exact Mem_fetch_makes_exist.
  - reflexivity.
  - reflexivity.
Defined.

Lemma firstn_le_sub {A} (l : list A) : forall n m x,
  (n <= m)%nat -> In x (firstn n l) -> In x (firstn m l).
Proof.
  induction l as [|a l IH]; intros [|n] [|m] x Hle H; simpl in *;
    try contradiction; try lia.
  destruct H as [->|H]; [now left|right]. apply IH with n; [lia|assumption].
Qed.

(** X13.  Raising the retention limit never deletes more: the kept
    representatives do not depend on the limit, and whatever a pass
    deletes under a limit it also deletes under every smaller limit. *)
Theorem larger_limit_deletes_less (cache1 cache2 : Z) (children : list IFileStat) :
  (cache1 <= cache2)%Z ->
  exists distinct toDelete1 toDelete2,
    reconcile cache1 children = Some (distinct, toDelete1) /\
    reconcile cache2 children = Some (distinct, toDelete2) /\
    forall r, In r toDelete2 -> In r toDelete1.
Proof.
  intros Hle. rewrite !reconcile_spec. do 3 eexists.
  split; [reflexivity|]. split; [reflexivity|].
  intros r. rewrite !in_app_iff. intros [H|[H|H]]; auto.
  right. right. revert H. apply firstn_le_sub. lia.
Qed.

Lemma larger_limit_deletes_less_witness :
  exists distinct toDelete1 toDelete2,
    reconcile 1 retentionListing = Some (distinct, toDelete1) /\
    reconcile 20 retentionListing = Some (distinct, toDelete2) /\
    forall r, In r toDelete2 -> In r toDelete1.
Proof.
  apply (larger_limit_deletes_less 1 20 retentionListing). lia.
Defined.
